(** * Rate limiters of the design-patterns repository

    A shallow embedding of the two rate limiters of the repository,
    [FixedWindowRateLimiter] and [TokenBucketRateLimiter], and the
    properties their specification states about them.

    The clock [Date.now()] is an input of every call: an integral number
    of milliseconds.  The methods mutate [this]; here they take the
    object and return the result together with the object afterwards. *)

From Stdlib Require Import ZArith Lia Bool List.
From Stdlib Require Import Floats.SpecFloat.
From stdpp Require Import gmap strings list fin_maps sorting.

Local Open Scope Z_scope.

(** ** JavaScript numbers

    A [number] is an IEEE 754 binary64 value.  The Standard Library's
    [SpecFloat] gives the format and its correctly rounded operations
    (round to nearest, ties to even), with one NaN as in JavaScript. *)
Module Binary64.

Definition prec : Z := 53.
Definition emax : Z := 1024.

Definition number : Type := spec_float.

(** A [spec_float] is a binary64 value when its mantissa and exponent
    are the canonical ones of the format. *)
Definition is_number (x : number) : Prop := valid_binary prec emax x = true.

Abbreviation emin := (SpecFloat.emin prec emax).
Abbreviation fexp := (SpecFloat.fexp prec emax).

(** Every finite binary64 number is an integer multiple of [2 ^ emin]:
    [scaled x] is that integer, the value of [x] in units of [2 ^ emin]
    (and 0 for the values that are not finite). *)
Definition scaled (x : number) : Z :=
  match x with
  | S754_finite s m e => cond_Zopp s (Z.pos m * 2 ^ (e - emin))
  | _ => 0
  end.

(** The last step of [binary_round_aux]: the number a sign, a rounded
    mantissa and its exponent stand for. *)
Definition pack (sx : bool) (m e : Z) : number :=
  match m with
  | Z0 => S754_zero sx
  | Zpos p => if e <=? emax - prec then S754_finite sx p e else S754_infinity sx
  | Zneg _ => S754_nan
  end.

(** Finite: neither an infinity nor NaN. *)
Definition finite (x : number) : bool :=
  match x with
  | S754_zero _ | S754_finite _ _ _ => true
  | S754_infinity _ | S754_nan => false
  end.

(** A time value, as [Date.now()] returns it: an integral number of
    milliseconds, at most 8.64e15 either side of the epoch. *)
Definition timeValue (t : Z) : Prop := Z.abs t <= 8640000000000000.

(** Either zero, [+0] or [-0]. *)
Definition is_zero (x : number) : bool :=
  match x with
  | S754_zero _ => true
  | _ => false
  end.

(** The number an integer literal or an integral clock reading denotes. *)
Definition ofZ (z : Z) : number := binary_normalize prec emax z 0 false.

Definition zero : number := S754_zero false.

(** [x + y], [x - y], [x * y], [x / y]. *)
Definition add : number -> number -> number := SFadd prec emax.
Definition sub : number -> number -> number := SFsub prec emax.
Definition mul : number -> number -> number := SFmul prec emax.
Definition div : number -> number -> number := SFdiv prec emax.

(** [x >= y], [x <= y], [x < y], [x == y]: all false when an operand
    is NaN; the two zeros are equal. *)
Definition geb (x y : number) : bool := SFleb y x.
Definition leb (x y : number) : bool := SFleb x y.
Definition ltb (x y : number) : bool := SFltb x y.
Definition eqb (x y : number) : bool := SFeqb x y.

(** [Math.min(x, y)]: NaN when an operand is NaN; -0 is below +0. *)
Definition Math_min (x y : number) : number :=
  match SFcompare x y with
  | None => S754_nan
  | Some Lt => x
  | Some Gt => y
  | Some Eq =>
      match y with
      | S754_zero true => y
      | _ => x
      end
  end.

End Binary64.

(** ** The fixed-window limiter

    Every number this class handles is an integer: readings of
    [Date.now()], the two options (documented as positive integers) and
    an array length.  JavaScript's subtraction and comparisons are exact
    on them (lemmas [inWindow_on_numbers] and [limit_on_numbers] below),
    so they are integers here. *)
Module FixedWindow.

Record RateLimiterOptions := {
  opt_maxRequests : Z;
  opt_timeWindowMs : Z
}.

Record FixedWindowRateLimiter := {
  maxRequests : Z;
  timeWindowMs : Z;
  requestTimestamps : gmap string (list Z)
}.

Definition constructor (options : RateLimiterOptions) : FixedWindowRateLimiter :=
  {| maxRequests := opt_maxRequests options;
     timeWindowMs := opt_timeWindowMs options;
     requestTimestamps := ∅ |}.

(** [this.requestTimestamps.get(identifier) || []]: an array is truthy,
    so the default is taken only when the key is absent. *)
Definition timestampsOf (identifier : string) (this : FixedWindowRateLimiter) : list Z :=
  default [] (requestTimestamps this !! identifier).

(** The predicate of the [filter] call, [now - ts < this.timeWindowMs]. *)
Definition inWindow (timeWindowMs now ts : Z) : Prop :=
  now - ts < timeWindowMs.

#[global] Instance inWindow_dec w now ts : Decision (inWindow w now ts).
Proof. unfold inWindow. apply _. Defined.

Definition recentTimestamps (now : Z) (identifier : string)
    (this : FixedWindowRateLimiter) : list Z :=
  filter (inWindow (timeWindowMs this) now) (timestampsOf identifier this).

(** [filter] builds a fresh array, so the [push] does not touch the
    stored one; the map changes only through [set]. *)
Definition isAllowed (now : Z) (identifier : string)
    (this : FixedWindowRateLimiter) : bool * FixedWindowRateLimiter :=
  let recent := recentTimestamps now identifier this in
  if maxRequests this <=? Z.of_nat (length recent) then (false, this)
  else (true,
        {| maxRequests := maxRequests this;
           timeWindowMs := timeWindowMs this;
           requestTimestamps :=
             <[identifier := recent ++ [now]]> (requestTimestamps this) |}).

(** [k] calls for the same identifier at the same instant: the answers
    in order and the limiter afterwards. *)
Fixpoint burst (k : nat) (now : Z) (identifier : string)
    (this : FixedWindowRateLimiter) : list bool * FixedWindowRateLimiter :=
  match k with
  | O => ([], this)
  | S k' =>
      let '(b, this') := isAllowed now identifier this in
      let '(bs, this'') := burst k' now identifier this' in
      (b :: bs, this'')
  end.

(** The module-level example: [limiter], and the limiter after the first
    five of the six [handleRequest('user123')] calls, all at one instant. *)
Definition limiter : FixedWindowRateLimiter :=
  constructor {| opt_maxRequests := 5; opt_timeWindowMs := 60000 |}.

Definition user123 : string := "user123".

Definition after_five : FixedWindowRateLimiter := (burst 5 0 user123 limiter).2.

(** A sequence of calls, each with its clock reading and its identifier:
    the answers in order and the limiter afterwards. *)
Fixpoint calls (cs : list (Z * string)) (this : FixedWindowRateLimiter)
    : list bool * FixedWindowRateLimiter :=
  match cs with
  | [] => ([], this)
  | (now, identifier) :: cs' =>
      let '(b, this') := isAllowed now identifier this in
      let '(bs, this'') := calls cs' this' in
      (b :: bs, this'')
  end.

(** The clock readings of the calls of [cs] that were made for
    [identifier] and allowed, in order. *)
Fixpoint granted (identifier : string) (cs : list (Z * string))
    (this : FixedWindowRateLimiter) : list Z :=
  match cs with
  | [] => []
  | (now, id) :: cs' =>
      let '(b, this') := isAllowed now id this in
      (if b && bool_decide (id = identifier) then [now] else [])
        ++ granted identifier cs' this'
  end.

(** Every stored list has at least one entry and at most [maxRequests]. *)
Definition withinLimit (this : FixedWindowRateLimiter) : Prop :=
  ∀ identifier l, requestTimestamps this !! identifier = Some l →
    (1 <= length l)%nat ∧ Z.of_nat (length l) <= maxRequests this.

(** Each reading [a] of [l] closes a window of length [w] that holds at
    most [m] of the readings of [l] up to [a]. *)
Definition paced (w m : Z) (l : list Z) : Prop :=
  ∀ p a q, l = p ++ a :: q →
    Z.of_nat (length (filter (inWindow w a) (p ++ [a]))) <= m.

(** What [handleRequest] prints for an answer of [isAllowed]. *)
Definition message (userId : string) (allowed : bool) : string :=
  if allowed then "Request allowed for user " +:+ userId
  else "Rate limit exceeded for user " +:+ userId.

(** The readings of [l] in the window of length [w] that ends at [t],
    [t] included. *)
Definition inTrailingWindow (w t : Z) (l : list Z) : list Z :=
  filter (λ s, t - w < s ∧ s <= t) l.

(** [handleRequest]: the limiter it asks is the module's [limiter] object,
    passed along here with the lines [console.log] has printed so far. *)
Definition handleRequest (now : Z) (userId : string)
    (state : FixedWindowRateLimiter * list string)
    : FixedWindowRateLimiter * list string :=
  let '(limiter, console) := state in
  let '(allowed, limiter') := isAllowed now userId limiter in
  if allowed
  then (limiter', console ++ ["Request allowed for user " +:+ userId])
  else (limiter', console ++ ["Rate limit exceeded for user " +:+ userId]).

(** The script of the module: six requests of ['user123'], each with the
    reading of the clock at its call. *)
Definition script (t1 t2 t3 t4 t5 t6 : Z) : FixedWindowRateLimiter * list string :=
  handleRequest t6 user123
    (handleRequest t5 user123
       (handleRequest t4 user123
          (handleRequest t3 user123
             (handleRequest t2 user123
                (handleRequest t1 user123 (limiter, [])))))).

End FixedWindow.

(** ** The token-bucket limiter

    [capacity], [rate], [tokens] and the argument of [isAllowed] are
    binary64 numbers.  [lastCheckedAt] holds a reading of [Date.now()], an
    integer; [ofZ] gives the number the arithmetic is done on. *)
Module TokenBucket.
Import Binary64.

Record TokenBucketRateLimiter := {
  capacity : number;
  rate : number;
  lastCheckedAt : Z;
  tokens : number
}.

Definition constructor (now : Z) (capacity rate : number) : TokenBucketRateLimiter :=
  {| capacity := capacity;
     rate := rate;
     lastCheckedAt := now;
     tokens := capacity |}.

(** [(now - this.lastCheckedAt) / 1000] *)
Definition timePassed (now : Z) (this : TokenBucketRateLimiter) : number :=
  div (sub (ofZ now) (ofZ (lastCheckedAt this))) (ofZ 1000).

(** [Math.min(this.capacity, this.tokens + timePassed * this.rate)] *)
Definition refill (now : Z) (this : TokenBucketRateLimiter) : number :=
  Math_min (capacity this) (add (tokens this) (mul (timePassed now this) (rate this))).

Definition isAllowed (now : Z) (tokensRequested : number)
    (this : TokenBucketRateLimiter) : bool * TokenBucketRateLimiter :=
  let refilled := refill now this in
  if geb refilled tokensRequested then
    (true,
     {| capacity := capacity this;
        rate := rate this;
        lastCheckedAt := now;
        tokens := sub refilled tokensRequested |})
  else
    (false,
     {| capacity := capacity this;
        rate := rate this;
        lastCheckedAt := now;
        tokens := refilled |}).

(** What construction requires of its arguments: two finite numbers,
    both above zero. *)
Definition validParameters (capacity rate : number) : Prop :=
  is_number capacity ∧ is_number rate ∧
  finite capacity = true ∧ finite rate = true ∧
  ltb zero capacity = true ∧ ltb zero rate = true.

(** A limiter built from valid parameters, holding a number of tokens and
    a time value. *)
Definition wellFormed (this : TokenBucketRateLimiter) : Prop :=
  validParameters (capacity this) (rate this) ∧
  is_number (tokens this) ∧
  timeValue (lastCheckedAt this).

(** The invariant of the data model, [0 <= tokens <= capacity]. *)
Definition tokensInRange (this : TokenBucketRateLimiter) : Prop :=
  leb zero (tokens this) = true ∧
  leb (tokens this) (capacity this) = true.

(** A sequence of calls, each with its clock reading and its argument:
    the answers in order and the limiter afterwards. *)
Fixpoint calls (cs : list (Z * number)) (this : TokenBucketRateLimiter)
    : list bool * TokenBucketRateLimiter :=
  match cs with
  | [] => ([], this)
  | (now, n) :: cs' =>
      let '(b, this') := isAllowed now n this in
      let '(bs, this'') := calls cs' this' in
      (b :: bs, this'')
  end.

(** The module-level example: capacity 10, one token per second. *)
Definition bucketRateLimiter (now : Z) : TokenBucketRateLimiter :=
  constructor now (ofZ 10) (ofZ 1).

(** A limiter whose capacity is [2 ^ 53], the first integer whose
    successor is not a binary64 number. *)
Definition largeBucket : TokenBucketRateLimiter :=
  constructor 0 (ofZ 9007199254740992) (ofZ 1).

(** The calls a forward-running clock produces after the reading
    [start]: the readings are time values in order, and each call asks
    for a number of tokens above zero. *)
Definition forwardCalls (start : Z) (cs : list (Z * number)) : Prop :=
  StronglySorted Z.le (start :: cs.*1) ∧
  Forall (λ c, timeValue c.1 ∧ is_number c.2 ∧ ltb zero c.2 = true) cs.

(** One of the three numbers of the limiter is NaN. *)
Definition poisoned (this : TokenBucketRateLimiter) : Prop :=
  capacity this = S754_nan ∨ rate this = S754_nan ∨ tokens this = S754_nan.

(** A limiter with the whole capacity [c] that holds the whole number
    of tokens [a], last consulted at [t0]. *)
Definition wholeBucket (c a t0 : Z) (r : number) : TokenBucketRateLimiter :=
  {| capacity := ofZ c; rate := r; lastCheckedAt := t0; tokens := ofZ a |}.

(** Calls made at one clock reading, each asking for a whole number of
    tokens. *)
Definition atInstant (t0 : Z) (requests : list Z) : list (Z * number) :=
  (λ n, (t0, ofZ n)) <$> requests.

(** Reference for the comparison with the limiter: a counter of whole
    tokens, neither refilled nor rounded, that grants a request when
    that many tokens remain. *)
Fixpoint exactCounter (available : Z) (requests : list Z) : list bool * Z :=
  match requests with
  | [] => ([], available)
  | n :: ns =>
      if n <=? available
      then let '(bs, remaining) := exactCounter (available - n) ns in
           (true :: bs, remaining)
      else let '(bs, remaining) := exactCounter available ns in
           (false :: bs, remaining)
  end.

End TokenBucket.

(** * Properties of binary64 arithmetic

    What the limiters need of [SpecFloat]'s operations, proved from their
    definitions:
    - the digits of a mantissa and the right shifts of [shr];
    - [binary_round_aux_spec] and [binary_round_spec]: rounding returns a
      canonical mantissa within one unit of the truncated one;
    - validity and sign of the results of [ofZ], [+], [-], [*] and [/];
    - [compare_scaled]: on numbers [SFcompare] is the order of the scaled
      values;
    - [round_below] and [round_above]: rounding does not cross a number;
    - [sub_bounds] and [sub_negative_above]: a difference against its
      first operand;
    - [binary_round_shift], [ofZ_exact], [sub_ofZ]: integers below
      [2 ^ 53] are numbers and their differences are rounded once. *)
Module Binary64Facts.
Import Binary64.

(** Goals that only depend on the signs of their operands. *)
Ltac by_signs :=
  by repeat match goal with s : bool |- _ => destruct s end.

Lemma prec_eq : prec = 53. Proof. reflexivity. Qed.
Lemma emin_eq : emin = -1074. Proof. reflexivity. Qed.
Lemma emax_eq : emax = 1024. Proof. reflexivity. Qed.

Lemma fexp_eq e : fexp e = Z.max (e - prec) emin.
Proof. reflexivity. Qed.

Lemma fexp_mono e1 e2 : e1 <= e2 → fexp e1 <= fexp e2.
Proof. rewrite !fexp_eq. lia. Qed.

Lemma fexp_ge_emin e : emin <= fexp e.
Proof. rewrite fexp_eq. lia. Qed.

Lemma compare_cont_Eq (m1 m2 : positive) :
  Pos.compare_cont Eq m1 m2 = Eq → m1 = m2.
Proof. apply Pos.compare_eq. Qed.

Lemma compare_finite_Eq s1 m1 e1 s2 m2 e2 :
  SFcompare (S754_finite s1 m1 e1) (S754_finite s2 m2 e2) = Some Eq →
  s1 = s2 ∧ m1 = m2 ∧ e1 = e2.
Proof.
  simpl. intros [= H].
  destruct s1, s2; try discriminate;
    destruct (Z.compare_spec e1 e2); try discriminate;
    split_and!; try done; apply compare_cont_Eq;
    by destruct (Pos.compare_cont Eq m1 m2).
Qed.

Lemma compare_finite_refl s m e :
  SFcompare (S754_finite s m e) (S754_finite s m e) = Some Eq.
Proof.
  simpl. rewrite Z.compare_refl.
  change (Pos.compare_cont Eq m m) with (Pos.compare m m).
  rewrite Pos.compare_refl. by destruct s.
Qed.

(** Number of binary digits *)
Lemma digits2_pos_size (m : positive) : digits2_pos m = Pos.size m.
Proof. induction m; simpl; congruence. Qed.

Lemma Zdigits2_log2 (m : Z) : 0 < m → Zdigits2 m = Z.log2 m + 1.
Proof.
  destruct m as [|p|p]; try lia. intros _. simpl.
  rewrite digits2_pos_size.
  destruct p; simpl; lia.
Qed.

Lemma Zdigits2_bounds (m : Z) :
  0 < m → 2 ^ (Zdigits2 m - 1) <= m < 2 ^ Zdigits2 m.
Proof.
  intros Hm. rewrite Zdigits2_log2 by done.
  replace (Z.log2 m + 1 - 1) with (Z.log2 m) by lia.
  apply Z.log2_spec. done.
Qed.

Lemma Zdigits2_unique (m d : Z) :
  2 ^ (d - 1) <= m < 2 ^ d → 0 < d → Zdigits2 m = d.
Proof.
  intros H Hd.
  assert (0 < m) by (pose proof (Z.pow_pos_nonneg 2 (d - 1)); lia).
  rewrite Zdigits2_log2 by done.
  rewrite (Z.log2_unique m (d - 1)); [lia | lia |].
  by replace (Z.succ (d - 1)) with d by lia.
Qed.

Lemma Zdigits2_nonneg m : 0 <= Zdigits2 m.
Proof. destruct m; simpl; lia. Qed.

Lemma Zdigits2_pos m : 0 < m → 0 < Zdigits2 m.
Proof. destruct m; simpl; lia. Qed.

Lemma Zdigits2_le (m1 m2 : Z) : 0 <= m1 → m1 <= m2 → Zdigits2 m1 <= Zdigits2 m2.
Proof.
  intros H0 H. destruct (Z.eq_dec m1 0) as [->|Hne].
  - apply Zdigits2_nonneg.
  - rewrite !Zdigits2_log2 by lia.
    pose proof (Z.log2_le_mono m1 m2 H). lia.
Qed.

Lemma Zdigits2_lt_pow2 (m d : Z) : 0 <= m → 0 <= d → m < 2 ^ d → Zdigits2 m <= d.
Proof.
  intros Hm Hd H. destruct (Z.eq_dec m 0) as [->|Hne]; [simpl; lia|].
  rewrite Zdigits2_log2 by lia.
  assert (Z.log2 m < d) by (apply Z.log2_lt_pow2; lia). lia.
Qed.

Lemma Zdigits2_ge_pow2 (m d : Z) : 0 <= d → 2 ^ d <= m → d + 1 <= Zdigits2 m.
Proof.
  intros Hd H.
  assert (0 < m) by (pose proof (Z.pow_pos_nonneg 2 d); lia).
  rewrite Zdigits2_log2 by lia.
  assert (d <= Z.log2 m) by (apply Z.log2_le_pow2; lia). lia.
Qed.

Lemma Zdigits2_mul_pow2 (m n : Z) :
  0 < m → 0 <= n → Zdigits2 (m * 2 ^ n) = Zdigits2 m + n.
Proof.
  intros Hm Hn.
  assert (0 < 2 ^ n) by (apply Z.pow_pos_nonneg; lia).
  rewrite !Zdigits2_log2 by nia.
  rewrite Z.log2_mul_pow2 by lia. lia.
Qed.

Lemma Zdigits2_div_pow2 (m n : Z) :
  0 <= n → 2 ^ n <= m → Zdigits2 (m / 2 ^ n) = Zdigits2 m - n.
Proof.
  intros Hn Hm.
  assert (0 < 2 ^ n) by (apply Z.pow_pos_nonneg; lia).
  assert (0 < m / 2 ^ n) by (apply Z.div_str_pos; lia).
  rewrite !Zdigits2_log2 by lia.
  rewrite <- Z.shiftr_div_pow2 by lia.
  rewrite Z.log2_shiftr by lia.
  assert (n <= Z.log2 m) by (apply Z.log2_le_pow2; lia). lia.
Qed.

(** Shifting right *)
Lemma iter_pos_iter {A} (f : A → A) (p : positive) (x : A) :
  SpecFloat.iter_pos f p x = Pos.iter f x p.
Proof.
  revert x. induction p as [p IH|p IH|]; intros x; simpl.
  - rewrite !IH. by rewrite <- !Pos.iter_swap.
  - by rewrite !IH.
  - done.
Qed.

Lemma shr_1_m (r : shr_record) : 0 <= shr_m r → shr_m (shr_1 r) = shr_m r / 2.
Proof.
  destruct r as [m b s]. simpl. intros Hm.
  destruct m as [|[p|p|]|p]; cbn [shr_m]; try lia; try done.
  - rewrite Pos2Z.inj_xI. 
    replace (2 * Z.pos p + 1) with (Z.pos p * 2 + 1) by lia.
    rewrite Z.div_add_l by lia. rewrite Z.div_small; lia.
  - rewrite Pos2Z.inj_xO. rewrite Z.mul_comm, Z.div_mul by lia. done.
Qed.

Lemma shr_iter_m (p : positive) (r : shr_record) :
  0 <= shr_m r → shr_m (SpecFloat.iter_pos shr_1 p r) = shr_m r / 2 ^ Zpos p.
Proof.
  intros Hm. rewrite iter_pos_iter.
  induction p as [|p IH] using Pos.peano_ind.
  - simpl. rewrite shr_1_m by done. done.
  - rewrite Pos.iter_succ. 
    assert (0 <= shr_m (Pos.iter shr_1 r p)).
    { rewrite IH. apply Z.div_pos; [done|]. apply Z.pow_pos_nonneg; lia. }
    rewrite shr_1_m by done. rewrite IH.
    rewrite Pos2Z.inj_succ, Z.pow_succ_r by lia.
    assert (0 < 2 ^ Z.pos p) by (apply Z.pow_pos_nonneg; lia).
    rewrite Z.div_div by lia.
    f_equal. lia.
Qed.

Lemma shr_record_of_loc_m m l : shr_m (shr_record_of_loc m l) = m.
Proof. by destruct l as [|[]]. Qed.

(** [shr_fexp]: the mantissa is divided, the exponent adjusted. *)
Lemma shr_fexp_spec (m e : Z) (l : location) :
  0 <= m →
  let c := fexp (Zdigits2 m + e) in
  shr_m (shr_fexp prec emax m e l).1 = m / 2 ^ (Z.max 0 (c - e)) ∧
  (shr_fexp prec emax m e l).2 = Z.max e c.
Proof.
  intros Hm c. unfold shr_fexp, shr. fold c.
  destruct (c - e) as [|p|p] eqn:E; simpl.
  - rewrite shr_record_of_loc_m. rewrite Z.div_1_r. split; [done|lia].
  - rewrite shr_iter_m by (by rewrite shr_record_of_loc_m).
    rewrite shr_record_of_loc_m. split; [done | lia].
  - rewrite shr_record_of_loc_m. rewrite Z.div_1_r. split; [done|lia].
Qed.

Lemma round_nearest_even_bounds m l :
  m <= round_nearest_even m l <= m + 1.
Proof.
  destruct l as [|[]]; simpl; try lia.
  destruct (Z.even m); lia.
Qed.

Lemma Zdigits2_succ (m : Z) : 0 <= m → Zdigits2 (m + 1) <= Zdigits2 m + 1.
Proof.
  intros Hm. destruct (Z.eq_dec m 0) as [->|Hne]; [simpl; lia|].
  pose proof (Zdigits2_bounds m ltac:(lia)) as [_ Hu].
  pose proof (Zdigits2_nonneg m).
  apply Zdigits2_lt_pow2; try lia.
  rewrite Z.pow_add_r by lia. change (2 ^ 1) with 2. lia.
Qed.

Lemma binary_round_aux_spec sx mx e1 lx :
  0 <= mx → e1 <= fexp (Zdigits2 mx + e1) →
  let c := fexp (Zdigits2 mx + e1) in
  let m1 := mx / 2 ^ (c - e1) in
  ∃ m3 e3,
    binary_round_aux prec emax sx mx e1 lx = pack sx m3 e3 ∧
    0 <= m3 ∧ c <= e3 <= c + 1 ∧
    m1 <= m3 * 2 ^ (e3 - c) <= m1 + 1 ∧
    fexp (Zdigits2 m3 + e3) = e3.
Proof.
  intros Hmx Hpre c m1.
  pose proof prec_eq as Hp. pose proof emin_eq as Hemin.
  assert (Hcmin : emin <= c) by apply fexp_ge_emin.
  assert (H2c : 0 < 2 ^ (c - e1)) by (apply Z.pow_pos_nonneg; lia).
  assert (Hm1 : 0 <= m1) by (apply Z.div_pos; lia).
  unfold binary_round_aux.
  destruct (shr_fexp_spec mx e1 lx Hmx) as [Hs1 He1]. fold c in Hs1, He1.
  destruct (shr_fexp prec emax mx e1 lx) as [mrs' e'] eqn:E1.
  cbn [fst snd] in Hs1, He1.
  rewrite Z.max_r in Hs1 by lia. fold m1 in Hs1.
  rewrite Z.max_r in He1 by lia. subst e'.
  set (m2 := round_nearest_even (shr_m mrs') (loc_of_shr_record mrs')).
  assert (Hm2 : m1 <= m2 <= m1 + 1).
  { unfold m2. rewrite Hs1. apply round_nearest_even_bounds. }
  destruct (shr_fexp_spec m2 c loc_Exact ltac:(lia)) as [Hs2 He2].
  destruct (shr_fexp prec emax m2 c loc_Exact) as [mrs'' e''] eqn:E2.
  cbn [fst snd] in Hs2, He2.
  set (c2 := fexp (Zdigits2 m2 + c)) in *.
  (* digits of m1 *)
  assert (Hd1 : fexp (Zdigits2 m1 + c) = c ∧ Zdigits2 m1 <= prec).
  { destruct (Z.eq_dec m1 0) as [Hz|Hnz].
    - assert (mx < 2 ^ (c - e1)).
      { unfold m1 in Hz. apply Z.div_small_iff in Hz; lia. }
      assert (Zdigits2 mx <= c - e1) by (apply Zdigits2_lt_pow2; lia).
      rewrite Hz. simpl Zdigits2. pose proof (fexp_eq (Zdigits2 mx + e1)) as Hc.
      fold c in Hc. rewrite fexp_eq. lia.
    - assert (2 ^ (c - e1) <= mx).
      { destruct (Z.le_gt_cases (2 ^ (c - e1)) mx); [done|].
        exfalso. apply Hnz. unfold m1. apply Z.div_small. lia. }
      assert (Zdigits2 m1 = Zdigits2 mx - (c - e1)).
      { unfold m1. apply Zdigits2_div_pow2; lia. }
      replace (Zdigits2 m1 + c) with (Zdigits2 mx + e1) by lia. fold c.
      split; [done|].
      pose proof (fexp_eq (Zdigits2 mx + e1)) as Hc. fold c in Hc. lia. }
  destruct Hd1 as [Hc1 Hd1].
  assert (Hd2 : Zdigits2 m1 <= Zdigits2 m2 <= Zdigits2 m1 + 1).
  { split; [apply Zdigits2_le; lia|].
    etransitivity; [apply (Zdigits2_le m2 (m1 + 1)); lia|].
    apply Zdigits2_succ; lia. }
  assert (Hc2 : c <= c2 <= c + 1).
  { unfold c2. rewrite fexp_eq. rewrite fexp_eq in Hc1. lia. }
  rewrite Z.max_r in He2 by lia. subst e''.
  exists (shr_m mrs''), c2.
  split; [reflexivity|].
  destruct (Z.eq_dec c2 c) as [Heq|Hne].
  - rewrite Heq in *. rewrite Z.sub_diag, Z.max_id in Hs2.
    change (2 ^ 0) with 1 in Hs2. rewrite Z.div_1_r in Hs2.
    rewrite Hs2. rewrite Z.sub_diag. change (2 ^ 0) with 1.
    split_and!; try lia.
  - assert (Hc2' : c2 = c + 1) by lia.
    rewrite Hc2' in *.
    replace (Z.max 0 (c + 1 - c)) with 1 in Hs2 by lia.
    change (2 ^ 1) with 2 in Hs2.
    replace (c + 1 - c) with 1 by lia. change (2 ^ 1) with 2.
    assert (Hdm2 : Zdigits2 m2 = prec + 1).
    { unfold c2 in Hc2'. rewrite fexp_eq in Hc2'. lia. }
    assert (Hdm1 : Zdigits2 m1 = prec) by lia.
    assert (0 < m1) by (destruct m1; simpl in Hdm1; lia).
    pose proof (Zdigits2_bounds m1 ltac:(lia)) as [_ Hu1].
    assert (0 < m2) by lia.
    pose proof (Zdigits2_bounds m2 ltac:(lia)) as [Hl2 _].
    rewrite Hdm1 in Hu1. rewrite Hdm2 in Hl2.
    replace (prec + 1 - 1) with prec in Hl2 by lia.
    assert (Hm2eq : m2 = 2 ^ prec) by lia.
    assert (Hm3 : shr_m mrs'' = 2 ^ (prec - 1)).
    { rewrite Hs2, Hm2eq. replace prec with (Z.succ (prec - 1)) at 1 by lia.
      rewrite Z.pow_succ_r by lia. rewrite Z.mul_comm, Z.div_mul; lia. }
    assert (H2p : 2 ^ prec = 2 * 2 ^ (prec - 1)).
    { replace prec with (Z.succ (prec - 1)) at 1 by lia.
      rewrite Z.pow_succ_r by lia. done. }
    assert (0 < 2 ^ (prec - 1)) by (apply Z.pow_pos_nonneg; lia).
    split_and!; try lia.
    rewrite Hm3.
    rewrite (Zdigits2_unique (2 ^ (prec - 1)) prec); try lia.
    rewrite fexp_eq. lia.
Qed.

Lemma iter_xO_pow2 (m d : positive) :
  Z.pos (Pos.iter xO m d) = Z.pos m * 2 ^ Z.pos d.
Proof.
  induction d as [|d IH] using Pos.peano_ind.
  - simpl. lia.
  - rewrite Pos.iter_succ, Pos2Z.inj_xO, IH.
    rewrite Pos2Z.inj_succ, Z.pow_succ_r by lia. lia.
Qed.

Lemma binary_round_spec sx (mx : positive) e1 :
  let c := fexp (Zdigits2 (Z.pos mx) + e1) in
  let m1 := Z.shiftl (Z.pos mx) (e1 - c) in
  ∃ m3 e3,
    binary_round prec emax sx mx e1 = pack sx m3 e3 ∧
    0 <= m3 ∧ c <= e3 <= c + 1 ∧
    m1 <= m3 * 2 ^ (e3 - c) <= m1 + 1 ∧
    fexp (Zdigits2 m3 + e3) = e3.
Proof.
  intros c m1. unfold binary_round, shl_align.
  change (Z.pos (digits2_pos mx)) with (Zdigits2 (Z.pos mx)). fold c.
  destruct (c - e1) as [|d|d] eqn:E.
  - destruct (binary_round_aux_spec sx (Z.pos mx) e1 loc_Exact) as (m3 & e3 & H);
      [lia | fold c; lia |].
    fold c in H. exists m3, e3.
    replace (c - e1) with 0 in H by lia. change (2 ^ 0) with 1 in H.
    rewrite Z.div_1_r in H.
    unfold m1. replace (e1 - c) with 0 by lia. by rewrite Z.shiftl_0_r.
  - destruct (binary_round_aux_spec sx (Z.pos mx) e1 loc_Exact) as (m3 & e3 & H);
      [lia | fold c; lia |].
    fold c in H. exists m3, e3.
    unfold m1. rewrite Z.shiftl_div_pow2 by lia.
    by replace (- (e1 - c)) with (c - e1) by lia.
  - assert (Hd : e1 - c = Z.pos d) by lia.
    assert (Hmz : Z.pos (Pos.iter xO mx d) = Z.pos mx * 2 ^ Z.pos d)
      by apply iter_xO_pow2.
    assert (Hdig : Zdigits2 (Z.pos (Pos.iter xO mx d)) + c = Zdigits2 (Z.pos mx) + e1).
    { rewrite Hmz, Zdigits2_mul_pow2 by lia. lia. }
    destruct (binary_round_aux_spec sx (Z.pos (Pos.iter xO mx d)) c loc_Exact)
      as (m3 & e3 & H); [lia | rewrite Hdig; fold c; lia |].
    rewrite Hdig in H. fold c in H. exists m3, e3.
    rewrite Z.sub_diag in H. change (2 ^ 0) with 1 in H.
    rewrite Z.div_1_r in H.
    unfold m1. rewrite Z.shiftl_mul_pow2 by lia. rewrite Hd. by rewrite <- Hmz.
Qed.

(** Validity *)
Lemma bounded_iff (m : positive) (e : Z) :
  bounded prec emax m e = true ↔
  fexp (Zdigits2 (Z.pos m) + e) = e ∧ e <= emax - prec.
Proof.
  unfold bounded, canonical_mantissa.
  rewrite andb_true_iff, Z.eqb_eq, Z.leb_le. done.
Qed.

Lemma bounded_facts (m : positive) (e : Z) :
  bounded prec emax m e = true →
  emin <= e <= emax - prec ∧ 1 <= Zdigits2 (Z.pos m) <= prec ∧
  (emin < e → Zdigits2 (Z.pos m) = prec).
Proof.
  rewrite bounded_iff, fexp_eq.
  pose proof (Zdigits2_pos (Z.pos m) ltac:(lia)). lia.
Qed.

Lemma pack_valid sx m e :
  fexp (Zdigits2 m + e) = e → is_number (pack sx m e).
Proof.
  intros Hc. unfold is_number, pack.
  destruct m as [|p|p]; try done.
  destruct (e <=? emax - prec) eqn:E; [|done].
  simpl. apply bounded_iff. split; [done|]. by apply Z.leb_le.
Qed.

Lemma binary_round_valid sx mx e : is_number (binary_round prec emax sx mx e).
Proof.
  destruct (binary_round_spec sx mx e) as (m3 & e3 & -> & _ & _ & _ & Hc).
  by apply pack_valid.
Qed.

Lemma binary_round_aux_valid sx mx e lx :
  0 <= mx → e <= fexp (Zdigits2 mx + e) →
  is_number (binary_round_aux prec emax sx mx e lx).
Proof.
  intros H0 Hpre.
  destruct (binary_round_aux_spec sx mx e lx H0 Hpre) as (m3 & e3 & -> & _ & _ & _ & Hc).
  by apply pack_valid.
Qed.

Lemma binary_normalize_valid m e sz : is_number (binary_normalize prec emax m e sz).
Proof. destruct m; simpl; [done | apply binary_round_valid..]. Qed.

Lemma ofZ_valid z : is_number (ofZ z).
Proof. apply binary_normalize_valid. Qed.

Lemma add_valid x y : is_number x → is_number y → is_number (add x y).
Proof.
  unfold add, SFadd.
  destruct x as [s1 | s1 | | s1 m1 e1], y as [s2 | s2 | | s2 m2 e2];
    intros Hx Hy; try done; try (by destruct s1, s2).
  apply binary_normalize_valid.
Qed.

Lemma sub_valid x y : is_number x → is_number y → is_number (sub x y).
Proof.
  unfold sub, SFsub.
  destruct x as [s1 | s1 | | s1 m1 e1], y as [s2 | s2 | | s2 m2 e2];
    intros Hx Hy; try done; try (by destruct s1, s2).
  apply binary_normalize_valid.
Qed.

Lemma Zdigits2_mul (a b : Z) :
  0 < a → 0 < b → Zdigits2 a + Zdigits2 b - 1 <= Zdigits2 (a * b).
Proof.
  intros Ha Hb.
  pose proof (Zdigits2_bounds a Ha) as [Hla _].
  pose proof (Zdigits2_bounds b Hb) as [Hlb _].
  pose proof (Zdigits2_pos a Ha). pose proof (Zdigits2_pos b Hb).
  assert (2 ^ (Zdigits2 a - 1 + (Zdigits2 b - 1)) <= a * b).
  { rewrite Z.pow_add_r by lia.
    assert (0 < 2 ^ (Zdigits2 a - 1)) by (apply Z.pow_pos_nonneg; lia).
    assert (0 < 2 ^ (Zdigits2 b - 1)) by (apply Z.pow_pos_nonneg; lia).
    nia. }
  pose proof (Zdigits2_ge_pow2 (a * b) (Zdigits2 a - 1 + (Zdigits2 b - 1)) ltac:(lia) ltac:(done)).
  lia.
Qed.

Lemma mul_valid x y : is_number x → is_number y → is_number (mul x y).
Proof.
  unfold mul, SFmul, is_number.
  destruct x as [s1 | s1 | | s1 m1 e1], y as [s2 | s2 | | s2 m2 e2];
    intros Hx Hy; try done.
  simpl in Hx, Hy.
  apply bounded_facts in Hx as (Hx1 & Hx2 & Hx3).
  apply bounded_facts in Hy as (Hy1 & Hy2 & Hy3).
  apply binary_round_aux_valid; [lia|].
  pose proof (Zdigits2_mul (Z.pos m1) (Z.pos m2) ltac:(lia) ltac:(lia)) as Hd.
  rewrite <- Pos2Z.inj_mul in Hd.
  rewrite fexp_eq. pose proof prec_eq. pose proof emin_eq. lia.
Qed.

Lemma div_core_spec (m1 e1 m2 e2 : Z) :
  0 < m1 → 0 < m2 →
  let '(q, e', _) := SFdiv_core_binary prec emax m1 e1 m2 e2 in
  0 <= q ∧ e' <= fexp (Zdigits2 q + e').
Proof.
  intros Hm1 Hm2. unfold SFdiv_core_binary.
  set (d1 := Zdigits2 m1). set (d2 := Zdigits2 m2).
  set (e' := Z.min (fexp (d1 + e1 - (d2 + e2))) (e1 - e2)).
  set (s := e1 - e2 - e').
  assert (Hs : 0 <= s) by (unfold s, e'; lia).
  set (m' := match s with Z.pos _ => Z.shiftl m1 s | Z0 => m1 | Z.neg _ => 0 end).
  assert (Hm' : m' = m1 * 2 ^ s).
  { unfold m'. destruct s; [simpl; lia | | lia].
    by rewrite Z.shiftl_mul_pow2. }
  pose proof (Z_div_mod m' m2 ltac:(lia)) as Hdm.
  unfold Z.div in *.
  destruct (Z.div_eucl m' m2) as [q r] eqn:E.
  assert (Hq : q = m' / m2) by (unfold Z.div; by rewrite E).
  assert (H2s : 0 < 2 ^ s) by (apply Z.pow_pos_nonneg; lia).
  assert (Hq0 : 0 <= q) by (rewrite Hq; apply Z.div_pos; nia).
  split; [done|].
  assert (Hdq : d1 + s - d2 <= Zdigits2 q).
  { destruct (Z.le_gt_cases (d1 + s - d2) 0) as [Hle|Hgt].
    - pose proof (Zdigits2_nonneg q). lia.
    - pose proof (Zdigits2_bounds m1 Hm1) as [Hl1 _].
      pose proof (Zdigits2_bounds m2 Hm2) as [_ Hu2].
      fold d1 in Hl1. fold d2 in Hu2.
      pose proof (Zdigits2_pos m1 Hm1). pose proof (Zdigits2_pos m2 Hm2).
      fold d1 in H. fold d2 in H0.
      assert (2 ^ (d1 + s - d2 - 1) <= q).
      { rewrite Hq. apply Z.div_le_lower_bound; [lia|].
        rewrite Hm'.
        assert (2 ^ (d1 + s - d2 - 1) * 2 ^ d2 = 2 ^ (d1 - 1) * 2 ^ s).
        { rewrite <- !Z.pow_add_r by lia. f_equal. lia. }
        assert (0 < 2 ^ (d1 + s - d2 - 1)) by (apply Z.pow_pos_nonneg; lia).
        nia. }
      pose proof (Zdigits2_ge_pow2 q (d1 + s - d2 - 1) ltac:(lia) ltac:(done)).
      lia. }
  etransitivity; [apply Z.le_min_l|].
  apply fexp_mono. unfold s in Hdq. lia.
Qed.

Lemma div_valid x y : is_number x → is_number y → is_number (div x y).
Proof.
  unfold div, SFdiv.
  destruct x as [s1 | s1 | | s1 m1 e1], y as [s2 | s2 | | s2 m2 e2];
    intros Hx Hy; try done.
  pose proof (div_core_spec (Z.pos m1) e1 (Z.pos m2) e2 ltac:(lia) ltac:(lia)) as H.
  destruct (SFdiv_core_binary _ _ _ _ _ _) as [[q e'] l].
  destruct H as [H0 Hpre]. by apply binary_round_aux_valid.
Qed.

Create HintDb number.
#[export] Hint Resolve ofZ_valid add_valid sub_valid mul_valid div_valid : number.

(** Signs *)
Lemma leb_zero_iff x :
  leb zero x = true ↔
  match x with
  | S754_zero _ | S754_finite false _ _ | S754_infinity false => True
  | _ => False
  end.
Proof. destruct x as [s | [] | | [] m e]; simpl; unfold leb, SFleb; simpl; intuition discriminate. Qed.

Lemma ltb_zero_iff x :
  ltb zero x = true ↔
  match x with
  | S754_finite false _ _ | S754_infinity false => True
  | _ => False
  end.
Proof. destruct x as [s | [] | | [] m e]; simpl; unfold ltb, SFltb; simpl; intuition discriminate. Qed.

Lemma pack_nonneg m e : 0 <= m → leb zero (pack false m e) = true.
Proof.
  intros Hm. apply leb_zero_iff. unfold pack.
  destruct m; [done | | lia]. by destruct (_ <=? _).
Qed.

Lemma binary_normalize_nonneg m e :
  0 <= m → leb zero (binary_normalize prec emax m e false) = true.
Proof.
  intros Hm. destruct m as [|p|p]; [done | | lia]. simpl.
  destruct (binary_round_spec false p e) as (m3 & e3 & -> & H0 & _).
  by apply pack_nonneg.
Qed.

Lemma ofZ_nonneg z : 0 <= z → leb zero (ofZ z) = true.
Proof. apply binary_normalize_nonneg. Qed.

Lemma add_nonneg x y :
  leb zero x = true → leb zero y = true → leb zero (add x y) = true.
Proof.
  rewrite !leb_zero_iff. unfold add, SFadd.
  destruct x as [s1 | [] | | [] m1 e1], y as [s2 | [] | | [] m2 e2];
    try done; try (by destruct s1, s2).
  intros _ _. apply leb_zero_iff. apply binary_normalize_nonneg.
  unfold cond_Zopp. lia.
Qed.

Lemma mul_nonneg x y :
  is_number x → is_number y →
  leb zero x = true → ltb zero y = true → finite y = true →
  leb zero (mul x y) = true.
Proof.
  intros Hx Hy. rewrite !leb_zero_iff, ltb_zero_iff. unfold mul, SFmul.
  destruct x as [s1 | [] | | [] m1 e1], y as [s2 | [] | | [] m2 e2];
    try done; try (simpl; tauto).
  intros _ _ _. apply leb_zero_iff.
  simpl in Hx, Hy.
  apply bounded_facts in Hx as (Hx1 & Hx2 & Hx3).
  apply bounded_facts in Hy as (Hy1 & Hy2 & Hy3).
  pose proof (Zdigits2_mul (Z.pos m1) (Z.pos m2) ltac:(lia) ltac:(lia)) as Hd.
  rewrite <- Pos2Z.inj_mul in Hd.
  destruct (binary_round_aux_spec (xorb false false) (Z.pos (m1 * m2)) (e1 + e2) loc_Exact)
    as (m3 & e3 & -> & H0 & _); [lia | |].
  - rewrite fexp_eq. pose proof prec_eq. pose proof emin_eq. lia.
  - by apply pack_nonneg.
Qed.

Lemma div_nonneg x y :
  leb zero x = true → ltb zero y = true → finite y = true →
  leb zero (div x y) = true.
Proof.
  rewrite !leb_zero_iff, ltb_zero_iff. unfold div, SFdiv.
  destruct x as [s1 | [] | | [] m1 e1], y as [s2 | [] | | [] m2 e2];
    try done; try (simpl; tauto).
  intros _ _ _. apply leb_zero_iff.
  pose proof (div_core_spec (Z.pos m1) e1 (Z.pos m2) e2 ltac:(lia) ltac:(lia)) as H.
  destruct (SFdiv_core_binary _ _ _ _ _ _) as [[q e'] l].
  destruct H as [H0 Hpre].
  destruct (binary_round_aux_spec (xorb false false) q e' l H0 Hpre)
    as (m3 & e3 & -> & H3 & _).
  by apply pack_nonneg.
Qed.

(** [Math.min] *)
Lemma Math_min_cases x y :
  SFcompare x y ≠ None → Math_min x y = x ∨ Math_min x y = y.
Proof.
  unfold Math_min. destruct (SFcompare x y) as [[]|]; try done; auto.
  destruct y as [[]| | |]; auto.
Qed.

Lemma compare_None x y :
  SFcompare x y = None ↔ x = S754_nan ∨ y = S754_nan.
Proof.
  destruct x as [s1 | s1 | | s1 m1 e1], y as [s2 | s2 | | s2 m2 e2];
    simpl; try (intuition congruence); try (destruct s1; intuition congruence);
    try (destruct s2; intuition congruence).
Qed.

Lemma leb_compare x y :
  leb x y = true ↔ SFcompare x y = Some Lt ∨ SFcompare x y = Some Eq.
Proof.
  unfold leb, SFleb. destruct (SFcompare x y) as [[]|]; intuition congruence.
Qed.

Lemma compare_antisym x y :
  SFcompare y x = option_map CompOpp (SFcompare x y).
Proof.
  destruct x as [s1 | s1 | | s1 m1 e1], y as [s2 | s2 | | s2 m2 e2];
    simpl; try done; try (by destruct s1); try (by destruct s2);
    try (by destruct s1, s2).
  f_equal.
  change (Pos.compare_cont Eq m1 m2) with (Pos.compare m1 m2).
  change (Pos.compare_cont Eq m2 m1) with (Pos.compare m2 m1).
  rewrite (Z.compare_antisym e1 e2), (Pos.compare_antisym m1 m2).
  by destruct s1, s2, (e1 ?= e2), (m1 ?= m2)%positive.
Qed.

Lemma Math_min_leb_l x y :
  x ≠ S754_nan → y ≠ S754_nan → leb (Math_min x y) x = true.
Proof.
  intros Hx Hy. unfold Math_min.
  destruct (SFcompare x y) as [c|] eqn:E.
  2: { apply compare_None in E. tauto. }
  assert (Hrefl : leb x x = true).
  { destruct x as [s1 | [] | | s1 m1 e1]; try done.
    apply leb_compare. right. apply compare_finite_refl. }
  destruct c; try done.
  - destruct y as [[]| | |]; try done.
    destruct x as [s1 | [] | | [] m1 e1]; done.
  - apply leb_compare. left. rewrite compare_antisym, E. done.
Qed.

(** Order and scaled value *)
Lemma pow2_pos n : 0 <= n → 0 < 2 ^ n.
Proof. intros. apply Z.pow_pos_nonneg; lia. Qed.

Lemma canonical_facts (m e : Z) :
  0 < m → fexp (Zdigits2 m + e) = e →
  emin <= e ∧ 1 <= Zdigits2 m <= prec ∧ (emin < e → Zdigits2 m = prec).
Proof.
  rewrite fexp_eq. intros Hm Hc.
  pose proof (Zdigits2_pos m Hm). lia.
Qed.

(** Among canonical pairs a smaller exponent means a smaller value. *)
Lemma canonical_exp_lt (m1 e1 m2 e2 : Z) :
  0 < m1 → 0 < m2 →
  fexp (Zdigits2 m1 + e1) = e1 → fexp (Zdigits2 m2 + e2) = e2 →
  e1 < e2 → m1 * 2 ^ (e1 - emin) < m2 * 2 ^ (e2 - emin).
Proof.
  intros H1 H2 Hc1 Hc2 Hlt.
  destruct (canonical_facts m1 e1 H1 Hc1) as (He1 & Hd1 & _).
  destruct (canonical_facts m2 e2 H2 Hc2) as (He2 & _ & Hd2).
  pose proof (Zdigits2_bounds m1 H1) as [_ Hu].
  pose proof (Zdigits2_bounds m2 H2) as [Hl _].
  rewrite Hd2 in Hl by lia.
  pose proof prec_eq as Hp.
  assert (2 ^ Zdigits2 m1 <= 2 ^ prec) by (apply Z.pow_le_mono_r; lia).
  assert (Hp2 : 2 ^ prec = 2 * 2 ^ (prec - 1)).
  { replace prec with (Z.succ (prec - 1)) at 1 by lia.
    by rewrite Z.pow_succ_r by lia. }
  assert (2 * 2 ^ (e1 - emin) <= 2 ^ (e2 - emin)).
  { rewrite <- Z.pow_succ_r by lia. apply Z.pow_le_mono_r; lia. }
  pose proof (pow2_pos (e1 - emin) ltac:(lia)).
  pose proof (pow2_pos (prec - 1) ltac:(lia)).
  nia.
Qed.

Lemma canonical_compare (m1 e1 m2 e2 : Z) :
  0 < m1 → 0 < m2 →
  fexp (Zdigits2 m1 + e1) = e1 → fexp (Zdigits2 m2 + e2) = e2 →
  match e1 ?= e2 with
  | Eq => m1 ?= m2
  | Lt => Lt
  | Gt => Gt
  end = (m1 * 2 ^ (e1 - emin) ?= m2 * 2 ^ (e2 - emin)).
Proof.
  intros H1 H2 Hc1 Hc2. symmetry.
  destruct (Z.compare_spec e1 e2) as [->|Hlt|Hgt].
  - destruct (canonical_facts m2 e2 H2 Hc2) as (He2 & _).
    pose proof (pow2_pos (e2 - emin) ltac:(lia)).
    destruct (Z.compare_spec m1 m2) as [->|?|?].
    + apply Z.compare_refl.
    + apply Z.compare_lt_iff. nia.
    + apply Z.compare_gt_iff. nia.
  - apply Z.compare_lt_iff. by apply canonical_exp_lt.
  - apply Z.compare_gt_iff. by apply canonical_exp_lt.
Qed.

Lemma scaled_finite_pos m e :
  bounded prec emax m e = true → 0 < Z.pos m * 2 ^ (e - emin).
Proof.
  intros Hb. apply bounded_facts in Hb as (He & _).
  pose proof (pow2_pos (e - emin) ltac:(lia)). nia.
Qed.

Lemma compare_scaled (x y : number) :
  is_number x → is_number y → finite x = true → finite y = true →
  SFcompare x y = Some (scaled x ?= scaled y).
Proof.
  unfold is_number.
  destruct x as [s1 | s1 | | s1 m1 e1], y as [s2 | s2 | | s2 m2 e2];
    try done; cbn [SFcompare scaled valid_binary]; intros Hx Hy _ _.
  - pose proof (scaled_finite_pos m2 e2 Hy).
    destruct (Z.pos m2 * 2 ^ (e2 - emin)); try lia. by destruct s2.
  - pose proof (scaled_finite_pos m1 e1 Hx).
    destruct (Z.pos m1 * 2 ^ (e1 - emin)); try lia. by destruct s1.
  - pose proof (scaled_finite_pos m1 e1 Hx) as Hp1.
    pose proof (scaled_finite_pos m2 e2 Hy) as Hp2.
    apply bounded_iff in Hx as [Hc1 _]. apply bounded_iff in Hy as [Hc2 _].
    pose proof (canonical_compare (Z.pos m1) e1 (Z.pos m2) e2
                  ltac:(lia) ltac:(lia) Hc1 Hc2) as Hcmp.
    change (Pos.compare_cont Eq m1 m2) with (Z.pos m1 ?= Z.pos m2).
    f_equal. destruct s1, s2; cbn [cond_Zopp].
    + rewrite Z.compare_opp.
      rewrite (Z.compare_antisym (Z.pos m1 * _)), <- Hcmp.
      by destruct (e1 ?= e2), (Z.pos m1 ?= Z.pos m2).
    + symmetry. apply Z.compare_lt_iff. lia.
    + symmetry. apply Z.compare_gt_iff. lia.
    + done.
Qed.

Lemma leb_scaled (x y : number) :
  is_number x → is_number y → finite x = true → finite y = true →
  leb x y = (scaled x <=? scaled y).
Proof.
  intros Hx Hy Hfx Hfy. unfold leb, SFleb.
  rewrite (compare_scaled x y Hx Hy Hfx Hfy). unfold Z.leb.
  by destruct (scaled x ?= scaled y).
Qed.

Lemma ltb_scaled (x y : number) :
  is_number x → is_number y → finite x = true → finite y = true →
  ltb x y = (scaled x <? scaled y).
Proof.
  intros Hx Hy Hfx Hfy. unfold ltb, SFltb.
  rewrite (compare_scaled x y Hx Hy Hfx Hfy). unfold Z.ltb.
  by destruct (scaled x ?= scaled y).
Qed.

(** Rounding against a representable bound *)
Lemma shl_align_fst (m : positive) (e ez : Z) :
  ez <= e → Z.pos (shl_align m e ez).1 = Z.pos m * 2 ^ (e - ez).
Proof.
  intros Hle. unfold shl_align.
  destruct (ez - e) as [|d|d] eqn:E; cbn [fst]; try lia.
  - replace (e - ez) with 0 by lia. lia.
  - rewrite iter_xO_pow2. f_equal. f_equal. lia.
Qed.

Lemma scaled_split (m e c : Z) :
  emin <= c <= e → m * 2 ^ (e - emin) = m * 2 ^ (e - c) * 2 ^ (c - emin).
Proof.
  intros H. rewrite <- Z.mul_assoc, <- Z.pow_add_r by lia.
  f_equal. f_equal. lia.
Qed.

Lemma digits_scaled_le (m1 e1 m2 e2 : Z) :
  0 < m1 → 0 < m2 → emin <= e1 → emin <= e2 →
  m1 * 2 ^ (e1 - emin) <= m2 * 2 ^ (e2 - emin) →
  Zdigits2 m1 + e1 <= Zdigits2 m2 + e2.
Proof.
  intros H1 H2 He1 He2 Hle.
  pose proof (pow2_pos (e1 - emin) ltac:(lia)).
  assert (Hd : Zdigits2 (m1 * 2 ^ (e1 - emin)) <= Zdigits2 (m2 * 2 ^ (e2 - emin)))
    by (apply Zdigits2_le; [nia | done]).
  rewrite !Zdigits2_mul_pow2 in Hd by lia. lia.
Qed.

(** The mantissa [Z.shiftl p (ez - c)], kept at exponent [c], against a
    multiple [K] of [2 ^ c]. *)
Lemma shiftl_scaled_lt (p ez c K : Z) :
  0 < p → emin <= ez → emin <= c →
  p * 2 ^ (ez - emin) < K * 2 ^ (c - emin) →
  Z.shiftl p (ez - c) + 1 <= K.
Proof.
  intros Hp Hez Hc Hlt.
  pose proof (pow2_pos (c - emin) ltac:(lia)).
  destruct (Z.le_gt_cases c ez) as [Hle|Hgt].
  - rewrite Z.shiftl_mul_pow2 by lia.
    rewrite (scaled_split p ez c) in Hlt by lia. nia.
  - rewrite Z.shiftl_div_pow2 by lia.
    replace (- (ez - c)) with (c - ez) by lia.
    rewrite (scaled_split K c ez) in Hlt by lia.
    pose proof (pow2_pos (c - ez) ltac:(lia)).
    pose proof (pow2_pos (ez - emin) ltac:(lia)).
    assert (p / 2 ^ (c - ez) < K); [|lia].
    apply Z.div_lt_upper_bound; [lia|]. nia.
Qed.

Lemma shiftl_scaled_ge (p ez c K : Z) :
  0 < p → emin <= ez → emin <= c →
  K * 2 ^ (c - emin) <= p * 2 ^ (ez - emin) →
  K <= Z.shiftl p (ez - c).
Proof.
  intros Hp Hez Hc Hlt.
  pose proof (pow2_pos (c - emin) ltac:(lia)).
  destruct (Z.le_gt_cases c ez) as [Hle|Hgt].
  - rewrite Z.shiftl_mul_pow2 by lia.
    rewrite (scaled_split p ez c) in Hlt by lia. nia.
  - rewrite Z.shiftl_div_pow2 by lia.
    replace (- (ez - c)) with (c - ez) by lia.
    rewrite (scaled_split K c ez) in Hlt by lia.
    pose proof (pow2_pos (c - ez) ltac:(lia)).
    pose proof (pow2_pos (ez - emin) ltac:(lia)).
    apply Z.div_le_lower_bound; [lia|]. nia.
Qed.

Lemma round_below (p : positive) (ez : Z) (mx : positive) (e1 : Z) :
  emin <= ez → bounded prec emax mx e1 = true →
  Z.pos p * 2 ^ (ez - emin) < Z.pos mx * 2 ^ (e1 - emin) →
  finite (binary_round prec emax false p ez) = true ∧
  leb (binary_round prec emax false p ez) (S754_finite false mx e1) = true.
Proof.
  intros Hez Hbx Hlt.
  pose proof (binary_round_valid false p ez) as Hv.
  destruct (binary_round_spec false p ez) as (m3 & e3 & Hr & H0 & He3 & Hb & Hc).
  set (c := fexp (Zdigits2 (Z.pos p) + ez)) in *.
  set (m1 := Z.shiftl (Z.pos p) (ez - c)) in *.
  pose proof (bounded_facts mx e1 Hbx) as (Hex & Hdx & _).
  pose proof (proj1 (bounded_iff mx e1) Hbx) as [Hcx _].
  assert (Hcmin : emin <= c) by apply fexp_ge_emin.
  assert (Hce : c <= e1).
  { rewrite <- Hcx. apply fexp_mono.
    apply digits_scaled_le; lia. }
  assert (HK : m1 + 1 <= Z.pos mx * 2 ^ (e1 - c)).
  { apply shiftl_scaled_lt; try lia. by rewrite <- scaled_split by lia. }
  assert (Hval : m3 * 2 ^ (e3 - emin) <= Z.pos mx * 2 ^ (e1 - emin)).
  { rewrite (scaled_split m3 e3 c) by lia.
    rewrite (scaled_split (Z.pos mx) e1 c) by lia.
    pose proof (pow2_pos (c - emin) ltac:(lia)). nia. }
  rewrite Hr in Hv |- *. unfold pack in Hv |- *.
  destruct m3 as [|q|q]; [done | | lia].
  assert (He3x : e3 <= e1).
  { destruct (Z.le_gt_cases e3 e1); [done|]. exfalso.
    pose proof (canonical_exp_lt (Z.pos mx) e1 (Z.pos q) e3
                  ltac:(lia) ltac:(lia) Hcx Hc ltac:(lia)). lia. }
  replace (e3 <=? emax - prec) with true in * by (symmetry; apply Z.leb_le; lia).
  split; [done|].
  rewrite leb_scaled by done. apply Z.leb_le. done.
Qed.

Lemma round_above (p : positive) (ez : Z) (mx : positive) (e1 : Z) :
  emin <= ez → bounded prec emax mx e1 = true →
  Z.pos mx * 2 ^ (e1 - emin) <= Z.pos p * 2 ^ (ez - emin) →
  leb (S754_finite false mx e1) (binary_round prec emax false p ez) = true.
Proof.
  intros Hez Hbx Hle.
  pose proof (binary_round_valid false p ez) as Hv.
  destruct (binary_round_spec false p ez) as (m3 & e3 & Hr & H0 & He3 & Hb & Hc).
  set (c := fexp (Zdigits2 (Z.pos p) + ez)) in *.
  set (m1 := Z.shiftl (Z.pos p) (ez - c)) in *.
  pose proof (bounded_facts mx e1 Hbx) as (Hex & Hdx & _).
  pose proof (proj1 (bounded_iff mx e1) Hbx) as [Hcx _].
  assert (Hcmin : emin <= c) by apply fexp_ge_emin.
  assert (Hce : e1 <= c).
  { rewrite <- Hcx. apply fexp_mono.
    apply digits_scaled_le; lia. }
  pose proof (pow2_pos (c - emin) ltac:(lia)) as Hpc.
  pose proof (pow2_pos (e1 - emin) ltac:(lia)) as Hpe.
  assert (HX : Z.pos mx * 2 ^ (e1 - emin) <= m1 * 2 ^ (c - emin)).
  { destruct (Z.eq_dec c e1) as [Heq|Hne].
    - assert (Z.pos mx <= m1); [|rewrite Heq in *; nia].
      apply shiftl_scaled_ge; try lia. by rewrite Heq.
    - assert (Hcgt : e1 < c) by lia.
      assert (Hcp : c = Zdigits2 (Z.pos p) + ez - prec).
      { unfold c in *. rewrite fexp_eq in *. lia. }
      pose proof (Zdigits2_bounds (Z.pos p) ltac:(lia)) as [Hlp _].
      pose proof prec_eq as Hprec.
      assert (Hm1 : 0 < m1 ∧ Zdigits2 m1 + c = Zdigits2 (Z.pos p) + ez).
      { unfold m1. destruct (Z.le_gt_cases c ez) as [Hle'|Hgt'].
        - rewrite Z.shiftl_mul_pow2 by lia.
          pose proof (pow2_pos (ez - c) ltac:(lia)).
          rewrite Zdigits2_mul_pow2 by lia. split; [nia | lia].
        - rewrite Z.shiftl_div_pow2 by lia.
          replace (- (ez - c)) with (c - ez) by lia.
          assert (2 ^ (c - ez) <= Z.pos p).
          { etransitivity; [|exact Hlp]. apply Z.pow_le_mono_r; lia. }
          pose proof (pow2_pos (c - ez) ltac:(lia)).
          rewrite Zdigits2_div_pow2 by lia. split; [|lia].
          apply Z.div_str_pos. lia. }
      destruct Hm1 as [Hm1 Hdm1].
      assert (fexp (Zdigits2 m1 + c) = c) by (rewrite Hdm1; done).
      pose proof (canonical_exp_lt (Z.pos mx) e1 m1 c
                    ltac:(lia) Hm1 Hcx ltac:(done) Hcgt). lia. }
  assert (Hval : Z.pos mx * 2 ^ (e1 - emin) <= m3 * 2 ^ (e3 - emin)).
  { rewrite (scaled_split m3 e3 c) by lia. nia. }
  assert (0 < m3).
  { pose proof (pow2_pos (e3 - emin) ltac:(lia)). nia. }
  rewrite Hr in Hv |- *. unfold pack in Hv |- *.
  destruct m3 as [|q|q]; [lia | | lia].
  destruct (e3 <=? emax - prec) eqn:E; [|done].
  rewrite leb_scaled by done. apply Z.leb_le. done.
Qed.


(** Subtraction against its first operand *)
Lemma sub_bounds (x y : number) :
  is_number x → is_number y → finite x = true →
  ltb zero y = true → leb y x = true →
  finite (sub x y) = true ∧
  leb zero (sub x y) = true ∧
  leb (sub x y) x = true.
Proof.
  intros Hx Hy Hfx Hy0 Hyx.
  apply ltb_zero_iff in Hy0.
  destruct y as [s2 | [] | | [] m2 e2]; try done;
    destruct x as [s1 | s1 | | [] m1 e1]; try done.
  rewrite leb_scaled in Hyx by done. apply Z.leb_le in Hyx.
  cbn [scaled cond_Zopp] in Hyx.
  pose proof (bounded_facts m1 e1 Hx) as (He1 & _).
  pose proof (bounded_facts m2 e2 Hy) as (He2 & _).
  pose proof (scaled_finite_pos m2 e2 Hy) as Hy0'.
  unfold sub, SFsub. cbn [cond_Zopp].
  set (ez := Z.min e1 e2).
  rewrite !shl_align_fst by lia.
  set (z := Z.pos m1 * 2 ^ (e1 - ez) - Z.pos m2 * 2 ^ (e2 - ez)).
  assert (Hz : z * 2 ^ (ez - emin) =
               Z.pos m1 * 2 ^ (e1 - emin) - Z.pos m2 * 2 ^ (e2 - emin)).
  { unfold z. rewrite Z.mul_sub_distr_r.
    rewrite <- !scaled_split by lia. done. }
  pose proof (pow2_pos (ez - emin) ltac:(lia)) as Hpz.
  destruct z as [|p|p] eqn:Ez; [done | | nia].
  cbn [binary_normalize].
  destruct (round_below p ez m1 e1 ltac:(lia) Hx ltac:(lia)) as [Hf Hle].
  split_and!; try done.
  apply (binary_normalize_nonneg (Z.pos p) ez). lia.
Qed.

Lemma sub_negative_above (x y : number) :
  is_number x → is_number y →
  leb zero x = true → ltb y zero = true →
  leb x (sub x y) = true.
Proof.
  intros Hx Hy Hx0 Hy0.
  apply leb_zero_iff in Hx0.
  assert (Hyneg : match y with
                  | S754_finite true _ _ | S754_infinity true => True
                  | _ => False
                  end).
  { destruct y as [s | [] | | [] m e]; try done. }
  clear Hy0.
  destruct y as [s2 | [] | | [] m2 e2]; try done;
    destruct x as [s1 | [] | | [] m1 e1]; try done.
  pose proof (bounded_facts m1 e1 Hx) as (He1 & _).
  pose proof (bounded_facts m2 e2 Hy) as (He2 & _).
  pose proof (scaled_finite_pos m2 e2 Hy) as Hy0'.
  unfold sub, SFsub. cbn [cond_Zopp].
  set (ez := Z.min e1 e2).
  rewrite !shl_align_fst by lia.
  set (z := Z.pos m1 * 2 ^ (e1 - ez) - - (Z.pos m2 * 2 ^ (e2 - ez))).
  assert (Hz : z * 2 ^ (ez - emin) =
               Z.pos m1 * 2 ^ (e1 - emin) + Z.pos m2 * 2 ^ (e2 - emin)).
  { unfold z. rewrite Z.sub_opp_r, Z.mul_add_distr_r.
    rewrite <- !scaled_split by lia. done. }
  pose proof (pow2_pos (ez - emin) ltac:(lia)) as Hpz.
  pose proof (scaled_finite_pos m1 e1 Hx) as Hx0'.
  destruct z as [|p|p] eqn:Ez; [lia | | nia].
  cbn [binary_normalize].
  apply round_above; [lia | done | lia].
Qed.

(** Order facts on finite numbers *)
Lemma leb_trans (x y z : number) :
  is_number x → is_number y → is_number z →
  finite x = true → finite y = true → finite z = true →
  leb x y = true → leb y z = true → leb x z = true.
Proof.
  intros Hx Hy Hz Hfx Hfy Hfz.
  rewrite !leb_scaled by done. rewrite !Z.leb_le. lia.
Qed.

Lemma leb_refl (x : number) : x ≠ S754_nan → leb x x = true.
Proof.
  intros Hx. destruct x as [s | [] | | s m e]; try done.
  apply leb_compare. right. apply compare_finite_refl.
Qed.

(** A number between zero and a finite number is finite. *)
Lemma between_finite (x y : number) :
  leb zero x = true → leb x y = true → finite y = true → finite x = true.
Proof.
  intros Hx0. apply leb_zero_iff in Hx0.
  destruct x as [s1 | [] | | [] m1 e1]; try done.
  by destruct y as [s2 | [] | | [] m2 e2].
Qed.

(** A number at or below zero is at or below every number at or above
    zero. *)
Lemma leb_across_zero (x y : number) :
  leb x zero = true → leb zero y = true → leb x y = true.
Proof.
  intros Hx Hy. apply leb_zero_iff in Hy.
  destruct y as [s2 | [] | | [] m2 e2]; try done;
    by destruct x as [s1 | [] | | [] m1 e1].
Qed.

Lemma nonneg_not_nan (x : number) : leb zero x = true → x ≠ S754_nan.
Proof. by destruct x. Qed.

Lemma ltb_leb (x y : number) : ltb x y = true → leb x y = true.
Proof. unfold ltb, leb, SFltb, SFleb. by destruct (SFcompare x y) as [[]|]. Qed.

(** Rounding depends on the value only

    [binary_round] gives the same number for [m * 2 ^ k] at exponent
    [e - k] as for [m] at exponent [e]: the [k] extra bits are zeros and
    shifting them out leaves an exact location. *)
Lemma shr_as_iter (mrs : shr_record) (e n : Z) :
  shr mrs e n = (Nat.iter (Z.to_nat n) shr_1 mrs, e + Z.max 0 n).
Proof.
  unfold shr. destruct n as [|q|q]; cbn [Z.to_nat Nat.iter].
  - f_equal; lia.
  - rewrite iter_pos_iter, Pos2Nat.inj_iter. f_equal; lia.
  - f_equal; lia.
Qed.

Lemma shr_1_even (m : Z) :
  0 <= m →
  shr_1 {| shr_m := 2 * m; shr_r := false; shr_s := false |} =
  {| shr_m := m; shr_r := false; shr_s := false |}.
Proof. intros Hm. destruct m as [|q|q]; [done | done | lia]. Qed.

Lemma shr_trailing_zeros (k : nat) (m : Z) :
  0 <= m →
  Nat.iter k shr_1
    {| shr_m := m * 2 ^ Z.of_nat k; shr_r := false; shr_s := false |} =
  {| shr_m := m; shr_r := false; shr_s := false |}.
Proof.
  intros Hm. induction k as [|k IH].
  - simpl. f_equal. lia.
  - rewrite Nat.iter_succ_r.
    replace (m * 2 ^ Z.of_nat (S k)) with (2 * (m * 2 ^ Z.of_nat k)).
    + rewrite shr_1_even; [done|].
      pose proof (pow2_pos (Z.of_nat k) ltac:(lia)). nia.
    + rewrite Nat2Z.inj_succ, Z.pow_succ_r by lia. lia.
Qed.

Lemma shr_trailing_zeros_Z (n m : Z) :
  0 <= m → 0 <= n →
  Nat.iter (Z.to_nat n) shr_1
    {| shr_m := m * 2 ^ n; shr_r := false; shr_s := false |} =
  {| shr_m := m; shr_r := false; shr_s := false |}.
Proof.
  intros Hm Hn.
  replace (m * 2 ^ n) with (m * 2 ^ Z.of_nat (Z.to_nat n))
    by (by rewrite Z2Nat.id).
  by apply shr_trailing_zeros.
Qed.

Lemma binary_round_aux_shr sx m1 e1 m2 e2 :
  shr_fexp prec emax m1 e1 loc_Exact = shr_fexp prec emax m2 e2 loc_Exact →
  binary_round_aux prec emax sx m1 e1 loc_Exact =
  binary_round_aux prec emax sx m2 e2 loc_Exact.
Proof. intros H. unfold binary_round_aux. by rewrite H. Qed.

Lemma binary_round_shift sx (p : positive) (e : Z) (k : positive) :
  binary_round prec emax sx (Pos.iter xO p k) (e - Z.pos k) =
  binary_round prec emax sx p e.
Proof.
  unfold binary_round.
  change (Z.pos (digits2_pos ?q)) with (Zdigits2 (Z.pos q)).
  pose proof (iter_xO_pow2 p k) as Hpk.
  assert (Hd : Zdigits2 (Z.pos (Pos.iter xO p k)) + (e - Z.pos k) =
               Zdigits2 (Z.pos p) + e).
  { rewrite Hpk, Zdigits2_mul_pow2 by lia. lia. }
  rewrite Hd. set (c := fexp (Zdigits2 (Z.pos p) + e)).
  unfold shl_align.
  destruct (c - (e - Z.pos k)) as [|n|n] eqn:E1; destruct (c - e) as [|n'|n'] eqn:E2;
    try lia.
  - (* c = e - k, c < e *)
    apply binary_round_aux_shr. unfold shr_fexp.
    rewrite Hd. fold c. cbn [Zdigits2].
    assert (Hd' : Zdigits2 (Z.pos (Pos.iter xO p n')) + c = Zdigits2 (Z.pos p) + e).
    { rewrite iter_xO_pow2, Zdigits2_mul_pow2 by lia. lia. }
    change (Z.pos (digits2_pos ?q)) with (Zdigits2 (Z.pos q)).
    rewrite Hd'. fold c. rewrite E1, Z.sub_diag. cbn [shr].
    f_equal; [|lia]. f_equal. assert (n' = k) by lia. by subst.
  - (* e - k < c = e *)
    apply binary_round_aux_shr. unfold shr_fexp.
    rewrite Hd. fold c. rewrite E1, E2. rewrite !shr_as_iter.
    cbn [shr_record_of_loc Z.to_nat Nat.iter].
    f_equal; [|lia].
    assert (n = k) by lia. subst n. rewrite Hpk.
    by rewrite shr_trailing_zeros_Z by lia.
  - (* e - k < c, e < c *)
    apply binary_round_aux_shr. unfold shr_fexp.
    rewrite Hd. fold c. rewrite E1, E2. rewrite !shr_as_iter.
    cbn [shr_record_of_loc].
    f_equal; [|lia].
    assert (Hn : Z.to_nat (Z.pos n) =
                 (Z.to_nat (Z.pos n') + Z.to_nat (Z.pos k))%nat) by lia.
    rewrite Hn, Nat.iter_add. rewrite Hpk.
    by rewrite shr_trailing_zeros_Z by lia.
  - (* e - k < c < e *)
    apply binary_round_aux_shr. unfold shr_fexp.
    assert (Hd' : Zdigits2 (Z.pos (Pos.iter xO p n')) + c = Zdigits2 (Z.pos p) + e).
    { rewrite iter_xO_pow2, Zdigits2_mul_pow2 by lia. lia. }
    rewrite Hd, Hd'. fold c. rewrite E1, Z.sub_diag. rewrite !shr_as_iter.
    cbn [shr_record_of_loc Z.to_nat Nat.iter].
    f_equal; [|lia].
    rewrite Hpk, iter_xO_pow2.
    assert (Hk : Z.pos k = Z.pos n' + Z.pos n) by lia.
    rewrite Hk, Z.pow_add_r, Z.mul_assoc by lia.
    rewrite shr_trailing_zeros_Z; [done | | lia].
    pose proof (pow2_pos (Z.pos n') ltac:(lia)). nia.
  - (* c < e - k *)
    f_equal. rewrite <- Pos.iter_add.
    by replace n' with (n + k)%positive by lia.
Qed.

Lemma binary_normalize_shift (z e k : Z) (sz : bool) :
  0 <= k →
  binary_normalize prec emax (z * 2 ^ k) (e - k) sz =
  binary_normalize prec emax z e sz.
Proof.
  intros Hk. destruct k as [|q|q]; [| | lia].
  - rewrite Z.pow_0_r, Z.mul_1_r, Z.sub_0_r. done.
  - destruct z as [|p|p].
    + done.
    + rewrite <- iter_xO_pow2. apply binary_round_shift.
    + change (Z.neg p) with (- Z.pos p).
      rewrite Z.mul_opp_l, <- iter_xO_pow2. apply binary_round_shift.
Qed.

(** A canonical mantissa is left as it is. *)
Lemma binary_round_aux_canonical sx (m : positive) (c : Z) :
  fexp (Zdigits2 (Z.pos m) + c) = c →
  binary_round_aux prec emax sx (Z.pos m) c loc_Exact = pack sx (Z.pos m) c.
Proof.
  intros Hc. unfold binary_round_aux, shr_fexp.
  rewrite Hc, Z.sub_diag. cbn [shr shr_record_of_loc shr_m loc_of_shr_record
                                round_nearest_even].
  rewrite Hc, Z.sub_diag. done.
Qed.

(** An integer below [2 ^ prec] in absolute value is a number: [ofZ]
    keeps its sign and its value. *)
Lemma ofZ_exact (a : Z) :
  a ≠ 0 → Z.abs a < 2 ^ prec →
  ∃ (m : positive) (c : Z),
    ofZ a = S754_finite (a <? 0) m c ∧ emin <= c <= 0 ∧
    Z.pos m = Z.abs a * 2 ^ (- c).
Proof.
  intros Ha Hlt.
  assert (Hgen : ∀ (s : bool) (p : positive), Z.pos p < 2 ^ prec →
            ∃ m c, binary_round prec emax s p 0 = S754_finite s m c ∧
                   emin <= c <= 0 ∧ Z.pos m = Z.pos p * 2 ^ (- c)).
  { intros s p Hp.
    pose proof prec_eq as Hprec. pose proof emin_eq as Hemin.
    pose proof emax_eq as Hemax.
    assert (Hd : Zdigits2 (Z.pos p) <= prec)
      by (apply Zdigits2_lt_pow2; lia).
    pose proof (Zdigits2_pos (Z.pos p) ltac:(lia)) as Hd0.
    unfold binary_round, shl_align.
    change (Z.pos (digits2_pos p)) with (Zdigits2 (Z.pos p)).
    set (c := fexp (Zdigits2 (Z.pos p) + 0)).
    assert (Hc : emin <= c <= 0) by (unfold c; rewrite fexp_eq; lia).
    destruct (c - 0) as [|d|d] eqn:E; [| lia |].
    - assert (c = 0) by lia.
      rewrite binary_round_aux_canonical by (fold c; lia).
      exists p, 0. unfold pack.
      replace (0 <=? emax - prec) with true by (symmetry; apply Z.leb_le; lia).
      split_and!; try done; try lia.
    - assert (Hpd : Z.pos (Pos.iter xO p d) = Z.pos p * 2 ^ (- c)).
      { rewrite iter_xO_pow2. f_equal. f_equal. lia. }
      rewrite binary_round_aux_canonical.
      + exists (Pos.iter xO p d), c. unfold pack.
        replace (c <=? emax - prec) with true by (symmetry; apply Z.leb_le; lia).
        split_and!; try done; try lia.
      + rewrite Hpd, Zdigits2_mul_pow2 by lia.
        replace (Zdigits2 (Z.pos p) + - c + c) with (Zdigits2 (Z.pos p) + 0) by lia.
        done. }
  unfold ofZ, binary_normalize.
  destruct a as [|p|p]; [done | |].
  - apply (Hgen false p). lia.
  - apply (Hgen true p). lia.
Qed.

Lemma ofZ_finite (a : Z) : Z.abs a < 2 ^ prec → finite (ofZ a) = true.
Proof.
  intros Ha. destruct (Z.eq_dec a 0) as [-> | Ha0]; [done|].
  by destruct (ofZ_exact a Ha0 Ha) as (m & c & -> & _).
Qed.

Lemma scaled_ofZ (a : Z) : Z.abs a < 2 ^ prec → scaled (ofZ a) = a * 2 ^ (- emin).
Proof.
  intros Ha. destruct (Z.eq_dec a 0) as [-> | Ha0]; [done|].
  destruct (ofZ_exact a Ha0 Ha) as (m & c & -> & Hc & Hm).
  cbn [scaled]. rewrite Hm, <- Z.mul_assoc, <- Z.pow_add_r by lia.
  replace (- c + (c - emin)) with (- emin) by lia.
  destruct (Z.ltb_spec a 0); cbn [cond_Zopp]; lia.
Qed.

(** On such integers the comparisons of numbers are the comparisons of
    integers. *)
Lemma leb_ofZ (a b : Z) :
  Z.abs a < 2 ^ prec → Z.abs b < 2 ^ prec →
  leb (ofZ a) (ofZ b) = (a <=? b).
Proof.
  intros Ha Hb.
  rewrite leb_scaled by (try apply ofZ_valid; by apply ofZ_finite).
  rewrite !scaled_ofZ by done.
  pose proof (pow2_pos (- emin) ltac:(by vm_compute)).
  apply eq_true_iff_eq. rewrite !Z.leb_le. nia.
Qed.

Lemma ltb_ofZ (a b : Z) :
  Z.abs a < 2 ^ prec → Z.abs b < 2 ^ prec →
  ltb (ofZ a) (ofZ b) = (a <? b).
Proof.
  intros Ha Hb.
  rewrite ltb_scaled by (try apply ofZ_valid; by apply ofZ_finite).
  rewrite !scaled_ofZ by done.
  pose proof (pow2_pos (- emin) ltac:(by vm_compute)).
  apply eq_true_iff_eq. rewrite !Z.ltb_lt. nia.
Qed.

Lemma timeValue_exact (t : Z) : timeValue t → Z.abs t < 2 ^ prec.
Proof. unfold timeValue. change (2 ^ prec) with 9007199254740992. lia. Qed.

(** The difference of two such integers, taken on the numbers, is the
    number of their difference: subtracting two clock readings loses
    nothing but the rounding of the integer difference. *)
Lemma sub_ofZ (a b : Z) :
  Z.abs a < 2 ^ prec → Z.abs b < 2 ^ prec →
  sub (ofZ a) (ofZ b) = ofZ (a - b).
Proof.
  intros Ha Hb.
  destruct (Z.eq_dec b 0) as [-> | Hb0].
  { rewrite Z.sub_0_r. change (ofZ 0) with (S754_zero false).
    unfold sub, SFsub. by destruct (ofZ a) as [[]|[]| |]. }
  destruct (ofZ_exact b Hb0 Hb) as (mb & cb & Eb & Hcb & Hmb).
  destruct (Z.eq_dec a 0) as [-> | Ha0].
  { change (ofZ 0) with (S754_zero false). rewrite Eb.
    cbn [sub SFsub]. unfold sub, SFsub.
    destruct (ofZ_exact (0 - b) ltac:(lia) ltac:(lia)) as (m' & c' & E' & Hc' & Hm').
    rewrite E'.
    assert (c' = cb ∧ m' = mb) as [-> ->]; [|f_equal; lia].
    pose proof (ofZ_valid b) as Hvb. pose proof (ofZ_valid (0 - b)) as Hv'.
    rewrite Eb in Hvb. rewrite E' in Hv'. unfold is_number in Hvb, Hv'.
    cbn [valid_binary] in Hvb, Hv'.
    apply bounded_iff in Hvb as [Hvb _]. apply bounded_iff in Hv' as [Hv' _].
    assert (Hdig : Zdigits2 (Z.pos m') + c' = Zdigits2 (Z.pos mb) + cb).
    { rewrite Hm', Hmb. replace (Z.abs (0 - b)) with (Z.abs b) by lia.
      rewrite !Zdigits2_mul_pow2 by lia. lia. }
    assert (c' = cb) by (rewrite <- Hv', <- Hvb, Hdig; done).
    subst c'. split; [done|].
    assert (Z.pos m' = Z.pos mb); [|lia].
    rewrite Hm', Hmb. f_equal. lia. }
  destruct (ofZ_exact a Ha0 Ha) as (ma & ca & Ea & Hca & Hma).
  rewrite Ea, Eb. unfold sub, SFsub.
  set (ez := Z.min ca cb).
  rewrite !shl_align_fst by lia.
  rewrite Hma, Hmb.
  assert (Hz : cond_Zopp (a <? 0) (Z.abs a * 2 ^ (- ca) * 2 ^ (ca - ez)) -
               cond_Zopp (b <? 0) (Z.abs b * 2 ^ (- cb) * 2 ^ (cb - ez)) =
               (a - b) * 2 ^ (- ez)).
  { rewrite <- !Z.mul_assoc, <- !Z.pow_add_r by lia.
    replace (- ca + (ca - ez)) with (- ez) by lia.
    replace (- cb + (cb - ez)) with (- ez) by lia.
    destruct (Z.ltb_spec a 0), (Z.ltb_spec b 0); cbn [cond_Zopp]; nia. }
  rewrite Hz.
  replace ez with (0 - - ez) at 2 by lia.
  by rewrite binary_normalize_shift by lia.
Qed.

(** Addition against its operands *)
Lemma add_comm (x y : number) : add x y = add y x.
Proof.
  unfold add, SFadd.
  destruct x as [s1 | s1 | | s1 m1 e1], y as [s2 | s2 | | s2 m2 e2];
    try done; try by_signs.
  by rewrite (Z.min_comm e1 e2), Z.add_comm.
Qed.

Lemma add_above (x y : number) :
  is_number x → is_number y →
  leb zero x = true → leb zero y = true →
  leb x (add x y) = true.
Proof.
  intros Hx Hy Hx0 Hy0.
  apply leb_zero_iff in Hx0. apply leb_zero_iff in Hy0.
  destruct x as [s1 | [] | | [] m1 e1]; try done;
    destruct y as [s2 | [] | | [] m2 e2]; try done; try by_signs.
  - apply leb_compare. right. apply compare_finite_refl.
  - pose proof (bounded_facts m1 e1 Hx) as (He1 & _).
    pose proof (bounded_facts m2 e2 Hy) as (He2 & _).
    unfold add, SFadd. cbn [cond_Zopp].
    set (ez := Z.min e1 e2).
    rewrite !shl_align_fst by lia.
    set (z := Z.pos m1 * 2 ^ (e1 - ez) + Z.pos m2 * 2 ^ (e2 - ez)).
    assert (Hz : z * 2 ^ (ez - emin) =
                 Z.pos m1 * 2 ^ (e1 - emin) + Z.pos m2 * 2 ^ (e2 - emin)).
    { unfold z. rewrite Z.mul_add_distr_r.
      rewrite <- !scaled_split by lia. done. }
    pose proof (pow2_pos (ez - emin) ltac:(lia)) as Hpz.
    pose proof (scaled_finite_pos m1 e1 Hx) as Hx0'.
    pose proof (scaled_finite_pos m2 e2 Hy) as Hy0'.
    destruct z as [|p|p] eqn:Ez; [lia | | nia].
    cbn [binary_normalize].
    apply round_above; [lia | done | lia].
Qed.

(** The order on all numbers *)
Lemma leb_trans_all (x y z : number) :
  is_number x → is_number y → is_number z →
  leb x y = true → leb y z = true → leb x z = true.
Proof.
  intros Hx Hy Hz Hxy Hyz.
  destruct (finite x) eqn:Fx, (finite y) eqn:Fy, (finite z) eqn:Fz;
    try (by apply (leb_trans x y z)).
  all: destruct x as [s1 | [] | | [] m1 e1]; try done;
    destruct y as [s2 | [] | | [] m2 e2]; try done;
    destruct z as [s3 | [] | | [] m3 e3]; try done.
Qed.

Lemma ltb_not_leb (x y : number) : ltb x y = true → leb y x = false.
Proof.
  unfold ltb, leb, SFltb, SFleb. rewrite (compare_antisym x y).
  by destruct (SFcompare x y) as [[]|].
Qed.

(** [Math.min] of a number above zero and a number that is not below it. *)
Lemma Math_min_l (x y : number) :
  ltb zero x = true → leb x y = true → Math_min x y = x.
Proof.
  intros Hx Hxy. apply ltb_zero_iff in Hx. unfold Math_min.
  apply leb_compare in Hxy as [-> | Hxy]; [done |]. rewrite Hxy.
  destruct x as [s1 | [] | | [] m1 e1]; try done;
    by destruct y as [[] | [] | | [] m2 e2].
Qed.

Lemma Math_min_above (x y z : number) :
  x ≠ S754_nan → y ≠ S754_nan →
  leb z x = true → leb z y = true → leb z (Math_min x y) = true.
Proof.
  intros Hx Hy Hzx Hzy.
  destruct (Math_min_cases x y) as [-> | ->]; try done.
  rewrite compare_None. tauto.
Qed.

(** Whole numbers: the arithmetic of integers below [2 ^ prec]. *)
Lemma ofZ_nonzero (a : Z) :
  a ≠ 0 → Z.abs a < 2 ^ prec → is_zero (ofZ a) = false.
Proof.
  intros Ha0 Ha. by destruct (ofZ_exact a Ha0 Ha) as (m & c & -> & _).
Qed.

Lemma add_ofZ_zero (a : Z) :
  Z.abs a < 2 ^ prec → add (ofZ a) (S754_zero false) = ofZ a.
Proof.
  intros Ha. destruct (Z.eq_dec a 0) as [-> | Ha0]; [done |].
  by destruct (ofZ_exact a Ha0 Ha) as (m & c & -> & _).
Qed.

Lemma Math_min_ofZ (c a : Z) :
  0 < c → 0 <= a <= c → c < 2 ^ prec →
  Math_min (ofZ c) (ofZ a) = ofZ a.
Proof.
  intros Hc Ha Hlt.
  destruct (Z.eq_dec a c) as [-> | Hne].
  - apply Math_min_l.
    + change zero with (ofZ 0). rewrite ltb_ofZ by lia. by apply Z.ltb_lt.
    + apply leb_refl. pose proof (ofZ_finite c ltac:(lia)). by destruct (ofZ c).
  - unfold Math_min.
    rewrite compare_scaled
      by (try apply ofZ_valid; apply ofZ_finite; lia).
    rewrite !scaled_ofZ by lia.
    pose proof (pow2_pos (- emin) ltac:(by vm_compute)) as Hp.
    assert (Hgt : (c * 2 ^ (- emin) ?= a * 2 ^ (- emin)) = Gt)
      by (apply Z.compare_gt_iff; nia).
    by rewrite Hgt.
Qed.

(** Two finite numbers that compare equal have a zero difference. *)
Lemma sub_eqb_zero (x y : number) :
  eqb x y = true → finite y = true → is_zero (sub x y) = true.
Proof.
  unfold eqb, SFeqb, sub.
  destruct x as [s1 | s1 | | s1 m1 e1], y as [s2 | s2 | | s2 m2 e2];
    try (simpl; intros Hc Hfin; try discriminate; by_signs).
  intros Hc _.
  destruct (SFcompare _ _) as [[| |]|] eqn:E; try discriminate.
  apply compare_finite_Eq in E as (-> & -> & ->).
  simpl. by rewrite Z.sub_diag.
Qed.

Lemma eqb_geb (x y : number) : eqb x y = true → geb x y = true.
Proof.
  unfold eqb, geb, SFeqb, SFleb.
  destruct x as [s1 | s1 | | s1 m1 e1], y as [s2 | s2 | | s2 m2 e2];
    try (simpl; try done; by_signs).
  intros Hc.
  destruct (SFcompare (S754_finite s1 _ _) _) as [[| |]|] eqn:E; try discriminate.
  apply compare_finite_Eq in E as (-> & -> & ->).
  by rewrite compare_finite_refl.
Qed.

(** Products and quotients against a representable bound *)
Lemma digits_value_le (m1 e1 m2 e2 B : Z) :
  0 < m1 → 0 < m2 → B <= e1 → B <= e2 →
  m1 * 2 ^ (e1 - B) <= m2 * 2 ^ (e2 - B) →
  Zdigits2 m1 + e1 <= Zdigits2 m2 + e2.
Proof.
  intros H1 H2 He1 He2 Hle.
  pose proof (pow2_pos (e1 - B) ltac:(lia)).
  assert (Hd : Zdigits2 (m1 * 2 ^ (e1 - B)) <= Zdigits2 (m2 * 2 ^ (e2 - B)))
    by (apply Zdigits2_le; [nia | done]).
  rewrite !Zdigits2_mul_pow2 in Hd by lia. lia.
Qed.

(** Rounding a mantissa with a location against a representable bound:
    the bound has a smaller canonical exponent, or the same one and a
    mantissa that is not above the truncated one. *)
Lemma round_aux_above (mz ez : Z) (l : location) (mx : positive) (e1 : Z) :
  0 < mz → ez <= fexp (Zdigits2 mz + ez) →
  bounded prec emax mx e1 = true →
  e1 <= fexp (Zdigits2 mz + ez) →
  (e1 = fexp (Zdigits2 mz + ez) →
   Z.pos mx <= mz / 2 ^ (fexp (Zdigits2 mz + ez) - ez)) →
  leb (S754_finite false mx e1) (binary_round_aux prec emax false mz ez l) = true.
Proof.
  intros Hmz Hpre Hbx Hce Hsame.
  pose proof (binary_round_aux_valid false mz ez l ltac:(lia) Hpre) as Hv.
  destruct (binary_round_aux_spec false mz ez l ltac:(lia) Hpre)
    as (m3 & e3 & Hr & H0 & He3 & Hb & Hc).
  set (c := fexp (Zdigits2 mz + ez)) in *.
  set (m1 := mz / 2 ^ (c - ez)) in *.
  pose proof (bounded_facts mx e1 Hbx) as (Hex & Hdx & _).
  pose proof (proj1 (bounded_iff mx e1) Hbx) as [Hcx _].
  assert (Hcmin : emin <= c) by apply fexp_ge_emin.
  pose proof (pow2_pos (c - emin) ltac:(lia)) as Hpc.
  pose proof (pow2_pos (e1 - emin) ltac:(lia)) as Hpe.
  assert (HX : Z.pos mx * 2 ^ (e1 - emin) <= m1 * 2 ^ (c - emin)).
  { destruct (Z.eq_dec e1 c) as [Heq|Hne].
    - specialize (Hsame Heq). rewrite Heq in *. nia.
    - assert (Hcgt : e1 < c) by lia.
      assert (Hcp : c = Zdigits2 mz + ez - prec).
      { unfold c in *. rewrite fexp_eq in *. lia. }
      pose proof (Zdigits2_bounds mz ltac:(lia)) as [Hlp _].
      pose proof prec_eq as Hprec.
      assert (2 ^ (c - ez) <= mz).
      { etransitivity; [|exact Hlp]. apply Z.pow_le_mono_r; lia. }
      pose proof (pow2_pos (c - ez) ltac:(lia)).
      assert (Hm1 : 0 < m1) by (apply Z.div_str_pos; lia).
      assert (Hdm1 : Zdigits2 m1 + c = Zdigits2 mz + ez).
      { unfold m1. rewrite Zdigits2_div_pow2 by lia. lia. }
      assert (fexp (Zdigits2 m1 + c) = c) by (rewrite Hdm1; done).
      pose proof (canonical_exp_lt (Z.pos mx) e1 m1 c
                    ltac:(lia) Hm1 Hcx ltac:(done) Hcgt). lia. }
  assert (Hval : Z.pos mx * 2 ^ (e1 - emin) <= m3 * 2 ^ (e3 - emin)).
  { rewrite (scaled_split m3 e3 c) by lia. nia. }
  assert (0 < m3).
  { pose proof (pow2_pos (e3 - emin) ltac:(lia)). nia. }
  rewrite Hr in Hv |- *. unfold pack in Hv |- *.
  destruct m3 as [|q|q]; [lia | | lia].
  destruct (e3 <=? emax - prec) eqn:E; [|done].
  rewrite leb_scaled by done. apply Z.leb_le. done.
Qed.

Lemma leb_zero_any (s : bool) (x : number) :
  leb zero x = true → leb (S754_zero s) x = true.
Proof. by destruct x as [|[]| |[]]. Qed.

Lemma mul_above (X w x y : number) :
  is_number X → is_number w → is_number x → is_number y →
  finite X = true → finite w = true → finite y = true →
  leb zero X = true → ltb zero w = true → ltb zero y = true →
  leb w x = true →
  scaled X * 2 ^ (- emin) <= scaled w * scaled y →
  leb X (mul x y) = true.
Proof.
  intros HX Hw Hx Hy HfX Hfw Hfy HX0 Hw0 Hy0 Hwx Hval.
  assert (Hx0 : ltb zero x = true).
  { apply ltb_zero_iff in Hw0. apply ltb_zero_iff.
    destruct w as [|[]| |[]]; try done; by destruct x as [[]|[]| |[]]. }
  apply ltb_zero_iff in Hx0. pose proof Hy0 as Hy0'. apply ltb_zero_iff in Hy0.
  destruct y as [|[]| |[] my ey]; try done.
  destruct x as [|[]| |[] mx ex]; try done.
  { apply leb_zero_iff in HX0. by destruct X as [|[]| |[]]. }
  destruct X as [sX|[]| |sX mX eX]; try done.
  { apply leb_zero_any. apply mul_nonneg; try done. }
  apply leb_zero_iff in HX0. destruct sX; [done|].
  assert (Hsw : scaled w <= Z.pos mx * 2 ^ (ex - emin)).
  { rewrite leb_scaled in Hwx by done. by apply Z.leb_le in Hwx. }
  cbn [scaled cond_Zopp] in Hval.
  pose proof (bounded_facts mx ex Hx) as (Hex & Hdx & Hnx).
  pose proof (bounded_facts my ey Hy) as (Hey & Hdy & Hny).
  pose proof (bounded_facts mX eX HX) as (HeX & HdX & _).
  pose proof (proj1 (bounded_iff mX eX) HX) as [HcX _].
  pose proof (scaled_finite_pos my ey Hy) as Hpy.
  pose proof emin_eq as Hemin. pose proof prec_eq as Hprec.
  set (ez := ex + ey).
  assert (Hbase : Z.pos mX * 2 ^ (eX - 2 * emin)
                  <= Z.pos (mx * my) * 2 ^ (ez - 2 * emin)).
  { replace (eX - 2 * emin) with ((eX - emin) + - emin) by lia.
    replace (ez - 2 * emin) with ((ex - emin) + (ey - emin)) by (unfold ez; lia).
    rewrite (Z.pow_add_r 2 (eX - emin) (- emin)) by lia.
    rewrite (Z.pow_add_r 2 (ex - emin) (ey - emin)) by lia.
    rewrite Pos2Z.inj_mul.
    pose proof (Z.mul_le_mono_nonneg_r _ _ (Z.pos my * 2 ^ (ey - emin))
                  ltac:(lia) Hsw) as Hmono.
    lia. }
  unfold mul, SFmul. cbn [xorb]. fold ez.
  assert (Hpre : ez <= fexp (Zdigits2 (Z.pos (mx * my)) + ez)).
  { pose proof (Zdigits2_mul (Z.pos mx) (Z.pos my) ltac:(lia) ltac:(lia)) as Hd.
    rewrite <- Pos2Z.inj_mul in Hd.
    rewrite fexp_eq. unfold ez. lia. }
  apply round_aux_above; try done.
  - rewrite <- HcX. apply fexp_mono.
    apply (digits_value_le _ _ _ _ (2 * emin)); lia.
  - intros Heq. set (c := fexp (Zdigits2 (Z.pos (mx * my)) + ez)) in *.
    pose proof (pow2_pos (c - ez) ltac:(lia)).
    apply Z.div_le_lower_bound; [lia|].
    rewrite Heq in Hbase.
    replace (c - 2 * emin) with ((c - ez) + (ez - 2 * emin)) in Hbase
      by lia.
    rewrite Z.pow_add_r in Hbase by (unfold ez; lia).
    pose proof (pow2_pos (ez - 2 * emin) ltac:(unfold ez; lia)). nia.
Qed.

(** The quotient [SFdiv_core_binary] hands to the rounding: its exponent
    and its mantissa, the integer part of the scaled quotient. *)
Lemma div_core_value (m1 e1 m2 e2 : Z) :
  0 < m1 → 0 < m2 →
  let '(q, e', _) := SFdiv_core_binary prec emax m1 e1 m2 e2 in
  e' <= e1 - e2 ∧ Z.min emin (e1 - e2) <= e' ∧
  q = m1 * 2 ^ (e1 - e2 - e') / m2 ∧
  (emin < e' → 0 < q).
Proof.
  intros Hm1 Hm2. unfold SFdiv_core_binary.
  set (d1 := Zdigits2 m1). set (d2 := Zdigits2 m2).
  set (e' := Z.min (fexp (d1 + e1 - (d2 + e2))) (e1 - e2)).
  set (s := e1 - e2 - e').
  pose proof (fexp_ge_emin (d1 + e1 - (d2 + e2))) as Hfe.
  assert (Hs : 0 <= s) by (unfold s, e'; lia).
  set (m' := match s with Z.pos _ => Z.shiftl m1 s | Z0 => m1 | Z.neg _ => 0 end).
  assert (Hm' : m' = m1 * 2 ^ s).
  { unfold m'. destruct s; [simpl; lia | | lia].
    by rewrite Z.shiftl_mul_pow2. }
  unfold Z.div in *.
  destruct (Z.div_eucl m' m2) as [q r] eqn:E.
  assert (Hq : q = m' / m2) by (unfold Z.div; by rewrite E).
  assert (H2s : 0 < 2 ^ s) by (apply Z.pow_pos_nonneg; lia).
  split_and!.
  - unfold e'. lia.
  - unfold e'. lia.
  - rewrite Hq, Hm'. unfold Z.div. done.
  - intros Hnormal.
    assert (He' : e' <= d1 + e1 - (d2 + e2) - prec).
    { unfold e' in *. rewrite fexp_eq in *. lia. }
    pose proof prec_eq as Hprec.
    pose proof (Zdigits2_bounds m1 Hm1) as [Hl1 _].
    pose proof (Zdigits2_bounds m2 Hm2) as [_ Hu2].
    fold d1 in Hl1. fold d2 in Hu2.
    pose proof (Zdigits2_pos m1 Hm1) as Hd1. pose proof (Zdigits2_pos m2 Hm2) as Hd2.
    fold d1 in Hd1. fold d2 in Hd2.
    assert (2 ^ (d1 + s - d2 - 1) <= q); [|
      pose proof (pow2_pos (d1 + s - d2 - 1) ltac:(unfold s; lia)); lia].
    rewrite Hq. apply Z.div_le_lower_bound; [lia|].
    rewrite Hm'.
    assert (2 ^ (d1 + s - d2 - 1) * 2 ^ d2 = 2 ^ (d1 - 1) * 2 ^ s).
    { rewrite <- !Z.pow_add_r by (unfold s; lia). f_equal. lia. }
    assert (0 < 2 ^ (d1 + s - d2 - 1))
      by (apply Z.pow_pos_nonneg; unfold s; lia).
    nia.
Qed.

Lemma div_above (X w x y : number) :
  is_number X → is_number w → is_number x → is_number y →
  finite X = true → finite w = true → finite y = true →
  leb zero X = true → ltb zero w = true → ltb zero y = true →
  leb w x = true →
  scaled X * scaled y <= scaled w * 2 ^ (- emin) →
  leb X (div x y) = true.
Proof.
  intros HX Hw Hx Hy HfX Hfw Hfy HX0 Hw0 Hy0 Hwx Hval.
  assert (Hx0 : ltb zero x = true).
  { apply ltb_zero_iff in Hw0. apply ltb_zero_iff.
    destruct w as [|[]| |[]]; try done; by destruct x as [[]|[]| |[]]. }
  apply ltb_zero_iff in Hx0. pose proof Hy0 as Hy0'. apply ltb_zero_iff in Hy0.
  destruct y as [|[]| |[] my ey]; try done.
  destruct x as [|[]| |[] mx ex]; try done.
  { apply leb_zero_iff in HX0. by destruct X as [|[]| |[]]. }
  destruct X as [sX|[]| |sX mX eX]; try done.
  { apply leb_zero_any. by apply div_nonneg. }
  apply leb_zero_iff in HX0. destruct sX; [done|].
  assert (Hsw : scaled w <= Z.pos mx * 2 ^ (ex - emin)).
  { rewrite leb_scaled in Hwx by done. by apply Z.leb_le in Hwx. }
  cbn [scaled cond_Zopp] in Hval.
  pose proof (bounded_facts mx ex Hx) as (Hex & Hdx & Hnx).
  pose proof (bounded_facts my ey Hy) as (Hey & Hdy & Hny).
  pose proof (bounded_facts mX eX HX) as (HeX & HdX & _).
  pose proof (proj1 (bounded_iff mX eX) HX) as [HcX _].
  pose proof emin_eq as Hemin. pose proof prec_eq as Hprec.
  pose proof (pow2_pos (- emin) ltac:(lia)) as HP.
  assert (Hbase : Z.pos mX * Z.pos my * 2 ^ (eX + ey - 2 * emin)
                  <= Z.pos mx * 2 ^ (ex - 2 * emin)).
  { replace (eX + ey - 2 * emin) with ((eX - emin) + (ey - emin)) by lia.
    replace (ex - 2 * emin) with ((ex - emin) + - emin) by lia.
    rewrite (Z.pow_add_r 2 (eX - emin) (ey - emin)) by lia.
    rewrite (Z.pow_add_r 2 (ex - emin) (- emin)) by lia.
    pose proof (Z.mul_le_mono_nonneg_r _ _ (2 ^ (- emin)) ltac:(lia) Hsw).
    lia. }
  unfold div, SFdiv. cbn [xorb].
  pose proof (div_core_spec (Z.pos mx) ex (Z.pos my) ey ltac:(lia) ltac:(lia))
    as Hspec.
  pose proof (div_core_value (Z.pos mx) ex (Z.pos my) ey ltac:(lia) ltac:(lia))
    as Hcore.
  destruct (SFdiv_core_binary _ _ _ _ _ _) as [[q e'] l].
  destruct Hspec as [Hq0 Hpre].
  destruct Hcore as (Hle & Hge & Hq & Hnormal).
  set (s := ex - ey - e') in *.
  assert (Hkey : e' <= eX → Z.pos mX * 2 ^ (eX - e') <= q).
  { intros HeX'. rewrite Hq. apply Z.div_le_lower_bound; [lia|].
    set (t := ey + e' - 2 * emin).
    assert (Ht : 0 <= t) by (unfold t; lia).
    pose proof (pow2_pos t Ht) as Hpt.
    replace (eX + ey - 2 * emin) with ((eX - e') + t) in Hbase
      by (unfold t; lia).
    replace (ex - 2 * emin) with (s + t) in Hbase by (unfold s, t; lia).
    rewrite (Z.pow_add_r 2 (eX - e') t) in Hbase by lia.
    rewrite (Z.pow_add_r 2 s t) in Hbase by (unfold s; lia).
    apply (Z.mul_le_mono_pos_r _ _ (2 ^ t)); lia. }
  assert (Hqpos : 0 < q).
  { destruct (Z.le_gt_cases e' eX) as [Hc | Hc].
    - specialize (Hkey Hc). pose proof (pow2_pos (eX - e') ltac:(lia)). nia.
    - apply Hnormal. lia. }
  apply round_aux_above; try done.
  - destruct (Z.le_gt_cases e' eX) as [Hc | Hc]; [|lia].
    rewrite <- HcX. apply fexp_mono.
    apply (digits_value_le _ _ _ _ e'); try lia.
    rewrite Z.sub_diag, Z.mul_1_r. by apply Hkey.
  - intros Heq. set (c := fexp (Zdigits2 q + e')) in *.
    pose proof (pow2_pos (c - e') ltac:(lia)).
    apply Z.div_le_lower_bound; [lia|].
    rewrite Z.mul_comm. rewrite <- Heq. apply Hkey. lia.
Qed.

Lemma ofZ_mono (b a : Z) :
  0 < b → b < 2 ^ prec → b <= a → leb (ofZ b) (ofZ a) = true.
Proof.
  intros Hb Hlt Hle.
  pose proof (ofZ_valid b) as Hv.
  destruct (ofZ_exact b ltac:(lia) ltac:(lia)) as (m & c & E & Hc & Hm).
  rewrite E in Hv |- *.
  replace (b <? 0) with false in * by (symmetry; apply Z.ltb_ge; lia).
  destruct a as [|p|p]; try lia.
  unfold ofZ. cbn [binary_normalize].
  apply round_above; [pose proof emin_eq; lia | done |].
  rewrite Hm, Z.abs_eq by lia.
  rewrite <- Z.mul_assoc, <- Z.pow_add_r by lia.
  replace (- c + (c - emin)) with (0 - emin) by lia.
  pose proof (pow2_pos (0 - emin) ltac:(pose proof emin_eq; lia)). nia.
Qed.

End Binary64Facts.

(** * Properties of the fixed-window limiter *)
Module FixedWindowProps.
Import FixedWindow.

(** The two tests of [isAllowed], done on binary64 numbers as JavaScript
    does them, are the integer tests of this model as long as the integers
    involved are below [2 ^ 53] in absolute value. *)
Lemma inWindow_on_numbers (w now ts : Z) :
  Z.abs now < 2 ^ Binary64.prec → Z.abs ts < 2 ^ Binary64.prec →
  Z.abs (now - ts) < 2 ^ Binary64.prec → Z.abs w < 2 ^ Binary64.prec →
  Binary64.ltb (Binary64.sub (Binary64.ofZ now) (Binary64.ofZ ts)) (Binary64.ofZ w) =
  bool_decide (inWindow w now ts).
Proof.
  intros Hnow Hts Hd Hw.
  rewrite Binary64Facts.sub_ofZ, Binary64Facts.ltb_ofZ by done.
  unfold inWindow. apply eq_true_iff_eq.
  by rewrite Z.ltb_lt, bool_decide_eq_true.
Qed.

Lemma limit_on_numbers (len : nat) (maxRequests : Z) :
  Z.of_nat len < 2 ^ Binary64.prec → Z.abs maxRequests < 2 ^ Binary64.prec →
  Binary64.geb (Binary64.ofZ (Z.of_nat len)) (Binary64.ofZ maxRequests) =
  (maxRequests <=? Z.of_nat len).
Proof.
  intros Hlen Hmax. unfold Binary64.geb.
  apply Binary64Facts.leb_ofZ; lia.
Qed.

Section Frame.
Variables (now : Z) (identifier : string) (this : FixedWindowRateLimiter).

(** The options never change. *)
Lemma isAllowed_options :
  maxRequests (isAllowed now identifier this).2 = maxRequests this ∧
  timeWindowMs (isAllowed now identifier this).2 = timeWindowMs this.
Proof. unfold isAllowed. by case_match. Qed.

Lemma isAllowed_false_iff :
  (isAllowed now identifier this).1 = false ↔
  maxRequests this <= Z.of_nat (length (recentTimestamps now identifier this)).
Proof.
  unfold isAllowed. case_match eqn:E; simpl.
  - apply Z.leb_le in E. done.
  - apply Z.leb_gt in E. split; [done | lia].
Qed.

Lemma isAllowed_false_state :
  (isAllowed now identifier this).1 = false →
  (isAllowed now identifier this).2 = this.
Proof. unfold isAllowed. by case_match. Qed.

Lemma isAllowed_true_history :
  (isAllowed now identifier this).1 = true →
  timestampsOf identifier (isAllowed now identifier this).2 =
    recentTimestamps now identifier this ++ [now].
Proof.
  unfold isAllowed. case_match; [done |]. intros _.
  unfold timestampsOf. simpl. by rewrite lookup_insert_eq.
Qed.

Lemma isAllowed_other (other : string) :
  identifier ≠ other →
  requestTimestamps (isAllowed now identifier this).2 !! other =
    requestTimestamps this !! other.
Proof.
  intros Hne. unfold isAllowed. case_match; [done |].
  simpl. by rewrite lookup_insert_ne.
Qed.
End Frame.

(** A timestamp taken at [now] is inside the window as soon as the window
    is positive. *)
Lemma filter_same_instant w now (j : nat) :
  0 < w →
  filter (inWindow w now) (replicate j now) = replicate j now.
Proof.
  intros Hw. induction j as [|j IH]; [done |].
  simpl. rewrite filter_cons_True; [by rewrite IH |].
  unfold inWindow. lia.
Qed.

(** Entries that are [timeWindowMs] old or older are all pruned. *)
Lemma filter_expired w now ts (j : nat) :
  w <= now - ts →
  filter (inWindow w now) (replicate j ts) = [].
Proof.
  intros Hw. induction j as [|j IH]; [done |].
  simpl. rewrite filter_cons_False; [done |].
  unfold inWindow. lia.
Qed.

(** A burst at one instant, started when the history holds [j] entries of
    that instant: the next [k] calls are allowed while [j + k] stays
    within [maxRequests]. *)
Lemma burst_same_instant (k : nat) : ∀ (j : nat) this now identifier,
  0 < timeWindowMs this →
  timestampsOf identifier this = replicate j now →
  Z.of_nat (j + k) <= maxRequests this →
  (burst k now identifier this).1 = replicate k true ∧
  timestampsOf identifier (burst k now identifier this).2 = replicate (j + k) now ∧
  maxRequests (burst k now identifier this).2 = maxRequests this ∧
  timeWindowMs (burst k now identifier this).2 = timeWindowMs this.
Proof.
  induction k as [|k IH]; intros j this now identifier Hw Hts Hle.
  - simpl. by rewrite Nat.add_0_r.
  - simpl.
    assert (Hrec : recentTimestamps now identifier this = replicate j now).
    { unfold recentTimestamps. rewrite Hts. by apply filter_same_instant. }
    assert (Hok : (isAllowed now identifier this).1 = true).
    { apply not_false_iff_true. intros Hf.
      apply isAllowed_false_iff in Hf.
      rewrite Hrec, length_replicate in Hf. lia. }
    pose proof (isAllowed_true_history now identifier this Hok) as Hhist.
    pose proof (isAllowed_options now identifier this) as [Hm Ht].
    destruct (isAllowed now identifier this) as [b this'] eqn:E.
    simpl in *. subst b.
    rewrite Hrec in Hhist.
    assert (Hhist' : timestampsOf identifier this' = replicate (S j) now).
    { rewrite Hhist. change [now] with (replicate 1 now).
      rewrite <- replicate_add. f_equal. lia. }
    destruct (IH (S j) this' now identifier) as (Hb & Hl & Hm' & Ht').
    + lia.
    + done.
    + rewrite Hm. lia.
    + destruct (burst k now identifier this') as [bs this''] eqn:E'.
      simpl in *. rewrite Hb, Hl, Hm', Ht'.
      split_and!; try done.
      by replace (j + S k)%nat with (S (j + k)) by lia.
Qed.

(** C1 (fixed window, capacity bound).  With [maxRequests > 0] and
    [timeWindowMs > 0], for an identifier without history, [maxRequests]
    calls of [isAllowed] at one instant all return [true] and the next
    call at that instant returns [false]. *)
Theorem burst_capacity_bound this now identifier :
  0 < maxRequests this →
  0 < timeWindowMs this →
  timestampsOf identifier this = [] →
  let n := Z.to_nat (maxRequests this) in
  (burst n now identifier this).1 = replicate n true ∧
  (isAllowed now identifier (burst n now identifier this).2).1 = false.
Proof.
  intros Hm Hw Hnone n.
  destruct (burst_same_instant n 0 this now identifier) as (Hb & Hl & Hm' & Ht').
  - done.
  - done.
  - subst n. lia.
  - split; [done |].
    apply isAllowed_false_iff.
    unfold recentTimestamps. rewrite Hl.
    rewrite Ht', filter_same_instant by done.
    rewrite length_replicate, Hm'. subst n. lia.
Qed.

(** The documented example: five requests at one instant fill the
    window of [limiter]. *)
Lemma limiter_filled identifier (t : Z) :
  (burst 5 t identifier limiter).1 = replicate 5 true ∧
  timestampsOf identifier (burst 5 t identifier limiter).2 = replicate 5 t ∧
  maxRequests (burst 5 t identifier limiter).2 = 5 ∧
  timeWindowMs (burst 5 t identifier limiter).2 = 60000.
Proof. by apply (burst_same_instant 5 0 limiter t identifier). Qed.

(** Entries younger than [timeWindowMs] are all kept. *)
Lemma filter_counted w now ts (j : nat) :
  now - ts < w →
  filter (inWindow w now) (replicate j ts) = replicate j ts.
Proof.
  intros Hw. induction j as [|j IH]; [done |].
  simpl. rewrite filter_cons_True; [by rewrite IH |].
  unfold inWindow. lia.
Qed.

(** C3 (fixed window, strict window and expiry).  [isAllowed] counts a
    stored timestamp iff [now - ts < timeWindowMs]: it returns [false]
    exactly when [maxRequests] or more stored timestamps pass that test,
    and after a [true] answer the stored list is the timestamps that
    pass it, followed by [now].  One that is exactly [timeWindowMs] old
    is not counted: a history of [maxRequests] entries taken at [ts] is
    rejected one millisecond before [ts + timeWindowMs] and allowed at
    [ts + timeWindowMs].  With [maxRequests = 5] and
    [timeWindowMs = 60000], after five allowed calls at [t = 0] a call at
    [t = 59999] returns [false] and a call at [t = 60001] returns [true]
    (and so does one at [t = 60000]). *)
Theorem window_strict_and_expiry :
  (∀ this now identifier,
     (isAllowed now identifier this).1 = false ↔
     maxRequests this <=
       Z.of_nat (length (filter (λ ts, now - ts < timeWindowMs this)
                           (timestampsOf identifier this)))) ∧
  (∀ this now identifier,
     (isAllowed now identifier this).1 = true →
     timestampsOf identifier (isAllowed now identifier this).2 =
       filter (λ ts, now - ts < timeWindowMs this)
         (timestampsOf identifier this) ++ [now]) ∧
  (∀ this now identifier ts,
     ts ∈ recentTimestamps now identifier this ↔
     ts ∈ timestampsOf identifier this ∧ now - ts < timeWindowMs this) ∧
  (∀ this identifier ts,
     ts ∉ recentTimestamps (ts + timeWindowMs this) identifier this) ∧
  (∀ this identifier ts,
     timestampsOf identifier this =
       replicate (Z.to_nat (maxRequests this)) ts →
     (isAllowed (ts + timeWindowMs this - 1) identifier this).1 = false ∧
     (0 < maxRequests this →
      (isAllowed (ts + timeWindowMs this) identifier this).1 = true)) ∧
  (∀ identifier,
     (burst 5 0 identifier limiter).1 = replicate 5 true ∧
     (isAllowed 59999 identifier (burst 5 0 identifier limiter).2).1 = false ∧
     (isAllowed 60001 identifier (burst 5 0 identifier limiter).2).1 = true ∧
     (isAllowed 60000 identifier (burst 5 0 identifier limiter).2).1 = true).
Proof.
  split_and!.
  - intros this now identifier.
    exact (isAllowed_false_iff now identifier this).
  - intros this now identifier Hok.
    exact (isAllowed_true_history now identifier this Hok).
  - intros this now identifier ts. unfold recentTimestamps.
    rewrite list_elem_of_filter. unfold inWindow. tauto.
  - intros this identifier ts. unfold recentTimestamps.
    rewrite list_elem_of_filter. unfold inWindow. lia.
  - intros this identifier ts Hl. split.
    + apply isAllowed_false_iff. unfold recentTimestamps.
      rewrite Hl, filter_counted, length_replicate by lia. lia.
    + intros Hm. apply not_false_iff_true. intros Hf.
      apply isAllowed_false_iff in Hf. unfold recentTimestamps in Hf.
      rewrite Hl, filter_expired in Hf by lia. simpl in Hf. lia.
  - intros identifier.
    destruct (limiter_filled identifier 0) as (Hb & Hl & Hm & Hw).
    split_and!; [done | | |].
    + apply isAllowed_false_iff. unfold recentTimestamps.
      rewrite Hl, Hm, Hw, filter_counted by lia. simpl. lia.
    + apply not_false_iff_true; intros Hf;
        apply isAllowed_false_iff in Hf;
        unfold recentTimestamps in Hf;
        rewrite Hl, Hm, Hw, filter_expired in Hf by lia;
        simpl in Hf; lia.
    + apply not_false_iff_true; intros Hf;
        apply isAllowed_false_iff in Hf;
        unfold recentTimestamps in Hf;
        rewrite Hl, Hm, Hw, filter_expired in Hf by lia;
        simpl in Hf; lia.
Qed.

(** C5 (fixed window, a rejection is not a request).  When [isAllowed]
    returns [false], the history recorded for the identifier is the one
    before the call: nothing is appended, and the number of entries counted
    at any later instant is unchanged. *)
Theorem rejection_appends_nothing this now identifier :
  (isAllowed now identifier this).1 = false →
  requestTimestamps (isAllowed now identifier this).2 !! identifier =
    requestTimestamps this !! identifier ∧
  ∀ later,
    length (recentTimestamps later identifier (isAllowed now identifier this).2) =
    length (recentTimestamps later identifier this).
Proof.
  intros Hf. by rewrite (isAllowed_false_state _ _ _ Hf).
Qed.

(** C7 (fixed window, independence).  A call for identifier [A] leaves the
    history of every other identifier [B] as it was, and with it the
    answer to any call for [B]. *)
Theorem identifiers_independent this now (A B : string) :
  A ≠ B →
  requestTimestamps (isAllowed now A this).2 !! B = requestTimestamps this !! B ∧
  ∀ later,
    (isAllowed later B (isAllowed now A this).2).1 = (isAllowed later B this).1.
Proof.
  intros Hne.
  pose proof (isAllowed_other now A this B Hne) as Hother.
  pose proof (isAllowed_options now A this) as [Hm Hw].
  split; [done |]. intros later.
  unfold isAllowed at 1 3.
  unfold recentTimestamps, timestampsOf.
  rewrite Hother, Hm, Hw. by repeat case_match.
Qed.

(** C9 (fixed window, a rejection changes nothing).  When [isAllowed]
    returns [false] the limiter is exactly the one before the call: the
    pruned list is dropped, so entries outside the window stay stored. *)
Theorem rejection_leaves_state this now identifier :
  (isAllowed now identifier this).1 = false →
  (isAllowed now identifier this).2 = this ∧
  timestampsOf identifier (isAllowed now identifier this).2 =
    timestampsOf identifier this.
Proof.
  intros Hf. by rewrite (isAllowed_false_state _ _ _ Hf).
Qed.

Lemma burst_capacity_bound_witness :
  0 < maxRequests limiter ∧ 0 < timeWindowMs limiter ∧
  timestampsOf user123 limiter = [] ∧
  (burst 5 0 user123 limiter).1 = replicate 5 true ∧
  (isAllowed 0 user123 (burst 5 0 user123 limiter).2).1 = false.
Proof.
  split; [reflexivity |]. split; [reflexivity |]. split; [reflexivity |].
  apply (burst_capacity_bound limiter 0 user123); reflexivity.
Defined.

Lemma window_strict_and_expiry_witness :
  timestampsOf user123 after_five =
    replicate (Z.to_nat (maxRequests after_five)) 0 ∧
  0 < maxRequests after_five ∧
  (isAllowed (0 + timeWindowMs after_five - 1) user123 after_five).1 = false ∧
  (isAllowed (0 + timeWindowMs after_five) user123 after_five).1 = true.
Proof.
  assert (Hl : timestampsOf user123 after_five =
               replicate (Z.to_nat (maxRequests after_five)) 0)
    by (vm_compute; reflexivity).
  assert (Hm : 0 < maxRequests after_five) by (vm_compute; reflexivity).
  destruct window_strict_and_expiry as (_ & _ & _ & _ & Hedge & _).
  destruct (Hedge after_five user123 0 Hl) as [Hf Ht].
  split; [exact Hl |]. split; [exact Hm |].
  split; [exact Hf | exact (Ht Hm)].
Defined.

Lemma rejection_appends_nothing_witness :
  (isAllowed 0 user123 after_five).1 = false ∧
  requestTimestamps (isAllowed 0 user123 after_five).2 !! user123 =
    requestTimestamps after_five !! user123.
Proof.
  split; [vm_compute; reflexivity |].
  apply (rejection_appends_nothing after_five 0 user123).
  vm_compute; reflexivity.
Defined.

Lemma identifiers_independent_witness :
  user123 ≠ "user456" ∧
  requestTimestamps (isAllowed 0 user123 limiter).2 !! "user456" =
    requestTimestamps limiter !! "user456".
Proof.
  split; [discriminate |].
  apply (identifiers_independent limiter 0 user123 "user456"). discriminate.
Defined.

Lemma rejection_leaves_state_witness :
  (isAllowed 59999 user123 after_five).1 = false ∧
  (isAllowed 59999 user123 after_five).2 = after_five.
Proof.
  split; [vm_compute; reflexivity |].
  apply (rejection_leaves_state after_five 59999 user123).
  vm_compute; reflexivity.
Defined.

(** ** The limiter over sequences of calls *)

Lemma isAllowed_withinLimit now identifier this :
  withinLimit this → withinLimit (isAllowed now identifier this).2.
Proof.
  intros Hin. unfold isAllowed. case_match eqn:E; [done |].
  apply Z.leb_gt in E. intros id l. cbn [snd requestTimestamps maxRequests].
  destruct (decide (identifier = id)) as [-> | Hne].
  - rewrite lookup_insert_eq. intros [= <-].
    rewrite length_app. simpl. lia.
  - rewrite lookup_insert_ne by done. apply Hin.
Qed.

Lemma calls_options cs : ∀ this,
  maxRequests (calls cs this).2 = maxRequests this ∧
  timeWindowMs (calls cs this).2 = timeWindowMs this.
Proof.
  induction cs as [|[now id] cs IH]; intros this; [done |].
  simpl. pose proof (isAllowed_options now id this) as [Hm Hw].
  destruct (isAllowed now id this) as [b this'].
  destruct (IH this') as [IHm IHw]. destruct (calls cs this') as [bs this''].
  simpl in *. split; congruence.
Qed.

Lemma calls_withinLimit cs : ∀ this,
  withinLimit this → withinLimit (calls cs this).2.
Proof.
  induction cs as [|[now id] cs IH]; intros this Hin; [done |].
  simpl. pose proof (isAllowed_withinLimit now id this Hin) as Hin'.
  destruct (isAllowed now id this) as [b this'].
  specialize (IH this' Hin'). by destruct (calls cs this') as [bs this''].
Qed.

Lemma constructor_withinLimit options : withinLimit (constructor options).
Proof. intros id l. unfold constructor. simpl. by rewrite lookup_empty. Qed.

Lemma timestampsOf_withinLimit this identifier :
  withinLimit this →
  timestampsOf identifier this = [] ∨
  Z.of_nat (length (timestampsOf identifier this)) <= maxRequests this.
Proof.
  intros Hin. unfold timestampsOf.
  destruct (requestTimestamps this !! identifier) as [l|] eqn:E; [|by left].
  right. by apply (Hin identifier l).
Qed.

Lemma filter_all {A} (P : A → Prop) `{∀ x, Decision (P x)} (l : list A) :
  length (filter P l) = length l → filter P l = l.
Proof.
  induction l as [|x l IH]; [done |].
  destruct (decide (P x)) as [HP | HP].
  - rewrite filter_cons_True by done. simpl. intros [= Hl]. by rewrite IH.
  - rewrite filter_cons_False by done. simpl.
    pose proof (length_filter P l). lia.
Qed.

(** X1 (fixed window, bounded history).  After any sequence of calls on a
    new limiter, whatever the clock did, every list stored in the map has
    at least one timestamp and at most [maxRequests]. *)
Theorem stored_history_bounded options cs identifier l :
  requestTimestamps (calls cs (constructor options)).2 !! identifier = Some l →
  (1 <= length l)%nat ∧ Z.of_nat (length l) <= opt_maxRequests options.
Proof.
  intros Hl.
  pose proof (calls_withinLimit cs _ (constructor_withinLimit options)) as Hin.
  pose proof (calls_options cs (constructor options)) as [Hm _].
  specialize (Hin identifier l Hl). by rewrite Hm in Hin.
Qed.

(** X2 (fixed window, a rejection has nothing to prune).  After any
    sequence of calls on a new limiter, a call that is rejected finds
    every stored timestamp of its identifier inside the window: the pruned
    list it drops is the stored one. *)
Theorem rejection_nothing_stale options cs now identifier :
  (isAllowed now identifier (calls cs (constructor options)).2).1 = false →
  recentTimestamps now identifier (calls cs (constructor options)).2 =
    timestampsOf identifier (calls cs (constructor options)).2.
Proof.
  set (this := (calls cs (constructor options)).2).
  intros Hf. apply isAllowed_false_iff in Hf.
  pose proof (calls_withinLimit cs _ (constructor_withinLimit options)) as Hin.
  fold this in Hin.
  unfold recentTimestamps in *.
  pose proof (length_filter (inWindow (timeWindowMs this) now)
                (timestampsOf identifier this)) as Hle.
  destruct (timestampsOf_withinLimit this identifier Hin) as [-> | Hlim]; [done |].
  apply filter_all. lia.
Qed.

(** X3 (fixed window, an expired entry frees a slot).  After any sequence
    of calls on a new limiter, a call is allowed as soon as one stored
    timestamp of its identifier is [timeWindowMs] old or older. *)
Theorem allowed_once_expired options cs now identifier ts :
  ts ∈ timestampsOf identifier (calls cs (constructor options)).2 →
  opt_timeWindowMs options <= now - ts →
  (isAllowed now identifier (calls cs (constructor options)).2).1 = true.
Proof.
  set (this := (calls cs (constructor options)).2).
  intros Hts Hold.
  pose proof (calls_withinLimit cs _ (constructor_withinLimit options)) as Hin.
  pose proof (calls_options cs (constructor options)) as [_ Hw].
  fold this in Hin, Hw. cbn [constructor timeWindowMs] in Hw.
  apply not_false_iff_true. intros Hf. apply isAllowed_false_iff in Hf.
  unfold recentTimestamps in Hf.
  assert (Hlt : (length (filter (inWindow (timeWindowMs this) now)
                           (timestampsOf identifier this))
                 < length (timestampsOf identifier this))%nat).
  { apply (length_filter_lt _ _ ts); [done |]. unfold inWindow. lia. }
  destruct (timestampsOf_withinLimit this identifier Hin) as [He | Hlim].
  - rewrite He in Hts. by apply elem_of_nil in Hts.
  - lia.
Qed.

Lemma filter_keeps_all {A} (P : A → Prop) `{∀ x, Decision (P x)} (l : list A) :
  (∀ x, x ∈ l → P x) → filter P l = l.
Proof.
  intros HP. induction l as [|x l IH]; [done |].
  rewrite filter_cons_True by (apply HP; left).
  f_equal. apply IH. intros y Hy. apply HP. by right.
Qed.

Lemma length_filter_mono {A} (P Q : A → Prop)
    `{∀ x, Decision (P x)} `{∀ x, Decision (Q x)} (l : list A) :
  (∀ x, x ∈ l → P x → Q x) →
  (length (filter P l) <= length (filter Q l))%nat.
Proof.
  intros HPQ. induction l as [|x l IH]; [done |].
  assert (IH' : (length (filter P l) <= length (filter Q l))%nat).
  { apply IH. intros y Hy. apply HPQ. by right. }
  destruct (decide (P x)) as [HP | HP].
  - rewrite (filter_cons_True P) by done.
    rewrite (filter_cons_True Q) by (apply HPQ; [left | done]).
    simpl. lia.
  - rewrite (filter_cons_False P) by done.
    destruct (decide (Q x)).
    + rewrite (filter_cons_True Q) by done. simpl. lia.
    + by rewrite (filter_cons_False Q) by done.
Qed.

(** Calls whose clock readings are all less than the window apart, made
    for an identifier whose [l] stored readings are as close: the first
    free slots are granted, the other calls rejected. *)
Lemma calls_close_readings (ts : list Z) : ∀ identifier this,
  (∀ s t, s ∈ timestampsOf identifier this ++ ts → t ∈ ts →
          t - s < timeWindowMs this) →
  let room :=
    Z.to_nat (maxRequests this - Z.of_nat (length (timestampsOf identifier this))) in
  (calls ((λ t, (t, identifier)) <$> ts) this).1 =
    replicate (length ts `min` room) true ++ replicate (length ts - room) false.
Proof.
  induction ts as [|t ts IH]; intros identifier this Hclose room; [done |].
  cbn [fmap list_fmap calls].
  assert (Hrec : recentTimestamps t identifier this = timestampsOf identifier this).
  { apply filter_keeps_all. intros s Hs. apply Hclose; [|left].
    apply elem_of_app. by left. }
  pose proof (isAllowed_options t identifier this) as [Hm Hw].
  destruct (isAllowed t identifier this) as [b this'] eqn:E.
  assert (Hb : (isAllowed t identifier this).1 = b) by (by rewrite E).
  cbn [snd] in Hm, Hw.
  destruct b.
  - pose proof (isAllowed_true_history t identifier this Hb) as Hhist.
    rewrite E, Hrec in Hhist. cbn [snd] in Hhist.
    assert (Hroom : (1 <= room)%nat).
    { apply not_false_iff_true in Hb. rewrite isAllowed_false_iff, Hrec in Hb.
      subst room. lia. }
    specialize (IH identifier this').
    rewrite Hhist, Hm, Hw in IH. rewrite length_app in IH. simpl in IH.
    destruct (calls ((λ t0, (t0, identifier)) <$> ts) this') as [bs this''].
    cbn [fst] in *. rewrite IH.
    + replace (Z.to_nat (maxRequests this -
                 Z.of_nat (length (timestampsOf identifier this) + 1)))
        with (room - 1)%nat by (subst room; lia).
      replace (length (t :: ts) `min` room)%nat
        with (S (length ts `min` (room - 1)))%nat by (cbn [length]; lia).
      replace (length (t :: ts) - room)%nat
        with (length ts - (room - 1))%nat by (cbn [length]; lia).
      done.
    + intros s t' Hs Ht'. apply Hclose; [|by right].
      rewrite <- app_assoc in Hs. simpl in Hs.
      apply elem_of_app in Hs as [Hs | Hs]; [apply elem_of_app; by left |].
      apply elem_of_app. by right.
  - pose proof (isAllowed_false_state t identifier this Hb) as Hst.
    rewrite E in Hst. cbn [snd] in Hst. subst this'.
    assert (Hroom : room = 0%nat).
    { rewrite isAllowed_false_iff, Hrec in Hb. subst room. lia. }
    specialize (IH identifier this).
    destruct (calls ((λ t0, (t0, identifier)) <$> ts) this) as [bs this''].
    cbn [fst] in *. rewrite IH.
    + fold room. rewrite Hroom.
      rewrite !Nat.min_0_r, !Nat.sub_0_r. done.
    + intros s t' Hs Ht'. apply Hclose; [|by right].
      apply elem_of_app in Hs as [Hs | Hs]; apply elem_of_app; [by left |].
      right. by right.
Qed.

(** X4 (fixed window, a burst inside one window).  When the clock readings
    of a run of calls for one identifier, without history, are pairwise
    less than [timeWindowMs] apart, the first [maxRequests] calls are
    allowed and all the others rejected. *)
Theorem burst_within_window this identifier (ts : list Z) :
  timestampsOf identifier this = [] →
  (∀ s t, s ∈ ts → t ∈ ts → t - s < timeWindowMs this) →
  (calls ((λ t, (t, identifier)) <$> ts) this).1 =
    replicate (length ts `min` Z.to_nat (maxRequests this)) true ++
    replicate (length ts - Z.to_nat (maxRequests this)) false.
Proof.
  intros Hnone Hclose.
  pose proof (calls_close_readings ts identifier this) as H.
  rewrite Hnone in H. cbn [length app] in H.
  rewrite Z.sub_0_r in H. by apply H.
Qed.

Lemma handleRequest_isAllowed now userId this console :
  handleRequest now userId (this, console) =
    ((isAllowed now userId this).2,
     console ++ [message userId (isAllowed now userId this).1]).
Proof.
  unfold handleRequest, message.
  by destruct (isAllowed now userId this) as [[] this'].
Qed.

(** X5 (fixed window, the script).  Whatever the six clock readings of the
    script's requests, provided the clock does not go back and the sixth
    comes less than a minute after the first, the console shows five
    lines [Request allowed for user user123] and then
    [Rate limit exceeded for user user123]. *)
Theorem script_console (t1 t2 t3 t4 t5 t6 : Z) :
  t1 <= t2 → t2 <= t3 → t3 <= t4 → t4 <= t5 → t5 <= t6 →
  t6 - t1 < 60000 →
  (script t1 t2 t3 t4 t5 t6).2 =
    replicate 5 "Request allowed for user user123" ++
    ["Rate limit exceeded for user user123"].
Proof.
  intros H12 H23 H34 H45 H56 Hspan.
  pose proof (burst_close := calls_close_readings [t1; t2; t3; t4; t5; t6]
                               user123 limiter).
  cbn [fmap list_fmap calls] in burst_close.
  unfold script. rewrite !handleRequest_isAllowed. cbn [fst snd].
  destruct (isAllowed t1 user123 limiter) as [b1 l1]. cbn [fst snd] in *.
  destruct (isAllowed t2 user123 l1) as [b2 l2]. cbn [fst snd] in *.
  destruct (isAllowed t3 user123 l2) as [b3 l3]. cbn [fst snd] in *.
  destruct (isAllowed t4 user123 l3) as [b4 l4]. cbn [fst snd] in *.
  destruct (isAllowed t5 user123 l4) as [b5 l5]. cbn [fst snd] in *.
  destruct (isAllowed t6 user123 l5) as [b6 l6]. cbn [fst snd] in *.
  assert (Hb : [b1; b2; b3; b4; b5; b6] = replicate 5 true ++ [false]).
  { apply burst_close. intros s t Hs Ht.
    change (timeWindowMs limiter) with 60000.
    change (timestampsOf user123 limiter) with (@nil Z) in Hs.
    cbn [app] in Hs.
    assert (Hin : ∀ x, x ∈ [t1; t2; t3; t4; t5; t6] → t1 <= x <= t6).
    { intros x Hx. repeat (apply elem_of_cons in Hx as [-> | Hx]; [lia |]).
      by apply elem_of_nil in Hx. }
    pose proof (Hin s Hs). pose proof (Hin t Ht). lia. }
  injection Hb as -> -> -> -> -> ->. done.
Qed.

(** The readings granted to an identifier stay [paced] when the clock
    does not go back. *)
Lemma granted_paced identifier (w m : Z) (cs : list (Z * string)) :
  ∀ this past,
  0 < w → timeWindowMs this = w → maxRequests this = m →
  StronglySorted Z.le cs.*1 →
  (∀ latest, last past = Some latest → Forall (Z.le latest) cs.*1) →
  timestampsOf identifier this =
    match last past with
    | Some latest => filter (inWindow w latest) past
    | None => []
    end →
  paced w m past →
  paced w m (past ++ granted identifier cs this).
Proof.
  induction cs as [|[now id] cs IH];
    intros this past Hw0 Hw Hm Hsorted Hlatest Hstored Hpaced.
  { cbn [granted]. by rewrite app_nil_r. }
  cbn [granted]. cbn [fmap list_fmap fst] in Hsorted, Hlatest.
  apply StronglySorted_inv in Hsorted as [Hsorted Hnow].
  pose proof (isAllowed_options now id this) as [Hm' Hw'].
  destruct (isAllowed now id this) as [b this'] eqn:E.
  assert (Hb : (isAllowed now id this).1 = b) by (by rewrite E).
  cbn [snd] in Hm', Hw'.
  assert (Hrest : ∀ latest, last past = Some latest → Forall (Z.le latest) cs.*1).
  { intros latest HL. specialize (Hlatest latest HL).
    by apply Forall_cons in Hlatest as [_ ?]. }
  destruct b; cycle 1.
  { pose proof (isAllowed_false_state now id this Hb) as Hst.
    rewrite E in Hst. cbn [snd] in Hst. subst this'.
    cbn [andb app]. by apply IH. }
  destruct (decide (id = identifier)) as [-> | Hne]; cycle 1.
  { rewrite bool_decide_eq_false_2 by done. cbn [andb app].
    apply IH; try done; try congruence.
    pose proof (isAllowed_other now id this identifier Hne) as Hoth.
    rewrite E in Hoth. cbn [snd] in Hoth.
    unfold timestampsOf in *. by rewrite Hoth. }
  rewrite bool_decide_eq_true_2 by done. cbn [andb].
  pose proof (isAllowed_true_history now identifier this Hb) as Hhist.
  rewrite E in Hhist. cbn [snd] in Hhist.
  assert (Hrecent : recentTimestamps now identifier this =
                    filter (inWindow w now) past).
  { unfold recentTimestamps. rewrite Hstored, Hw.
    destruct (last past) as [latest|] eqn:EL.
    - rewrite list_filter_filter. apply list_filter_iff.
      specialize (Hlatest latest eq_refl).
      apply Forall_cons in Hlatest as [Hle _].
      intros s. unfold inWindow. lia.
    - apply last_None in EL. by subst past. }
  assert (Hnew : timestampsOf identifier this' =
                 filter (inWindow w now) (past ++ [now])).
  { rewrite Hhist, Hrecent, filter_app. f_equal.
    rewrite filter_cons_True by (unfold inWindow; lia). done. }
  rewrite app_assoc. apply IH; try done; try congruence.
  - intros latest. rewrite last_snoc. by intros [= <-].
  - by rewrite last_snoc.
  - intros p a q Hsplit.
    destruct q as [|x q _] using rev_ind.
    + apply app_inj_tail in Hsplit as [-> ->].
      rewrite <- Hnew, Hhist, length_app. cbn [length].
      apply not_false_iff_true in Hb. rewrite isAllowed_false_iff in Hb. lia.
    + rewrite app_comm_cons, app_assoc in Hsplit.
      apply app_inj_tail in Hsplit as [Hsplit _].
      by apply (Hpaced p a q).
Qed.

Lemma paced_window (w m : Z) (l : list Z) :
  paced w m l → ∀ t,
  Z.of_nat (length (inTrailingWindow w t l)) <= Z.max 0 m.
Proof.
  induction l as [|a l IH] using rev_ind; intros Hpaced t; [simpl; lia |].
  assert (Hl : paced w m l).
  { intros p b q ->. apply (Hpaced p b (q ++ [a])).
    by rewrite <- app_assoc. }
  unfold inTrailingWindow in *.
  destruct (decide (a <= t)) as [Hle | Hgt].
  - pose proof (Hpaced l a [] eq_refl) as Hlast.
    pose proof (length_filter_mono (λ s, t - w < s ∧ s <= t) (inWindow w a)
                  (l ++ [a])) as Hmono.
    assert (Himp : ∀ s, s ∈ l ++ [a] → t - w < s ∧ s <= t → inWindow w a s)
      by (intros s _; unfold inWindow; lia).
    specialize (Hmono Himp). lia.
  - rewrite filter_app, filter_cons_False, filter_nil, app_nil_r by lia.
    by apply IH.
Qed.

(** X6 (fixed window, the rate limit).  On a new limiter with a positive
    window, whatever calls are made for whatever identifiers while the
    clock does not go back, no interval of length [timeWindowMs] holds
    more than [maxRequests] allowed calls of one identifier. *)
Theorem sliding_window_guarantee options cs identifier (t : Z) :
  0 < opt_timeWindowMs options →
  StronglySorted Z.le cs.*1 →
  Z.of_nat (length (inTrailingWindow (opt_timeWindowMs options) t
                      (granted identifier cs (constructor options))))
    <= Z.max 0 (opt_maxRequests options).
Proof.
  intros Hw Hsorted. apply paced_window.
  apply (granted_paced identifier (opt_timeWindowMs options)
           (opt_maxRequests options) cs (constructor options) []); try done.
  intros p a q Hsplit. by destruct p.
Qed.

(** Options that are not validated *)

(** X15 (fixed window, a limit of zero or less).  The constructor accepts
    any options: with [maxRequests] at zero or below, every call is
    rejected, whatever the clock and the identifiers, and the limiter is
    never changed. *)
Theorem nonpositive_limit_rejects_all (cs : list (Z * string)) this :
  maxRequests this <= 0 →
  calls cs this = (replicate (length cs) false, this).
Proof.
  intros Hmax. induction cs as [|[now id] cs IH]; [done |].
  cbn [calls].
  assert (Hf : (isAllowed now id this).1 = false)
    by (apply isAllowed_false_iff; lia).
  pose proof (isAllowed_false_state now id this Hf) as Hs.
  destruct (isAllowed now id this) as [b this']. cbn [fst snd] in *.
  subst. by rewrite IH.
Qed.

Lemma filter_none {A} (P : A → Prop) `{∀ x, Decision (P x)} (l : list A) :
  (∀ x, x ∈ l → ¬ P x) → filter P l = [].
Proof.
  intros HP. induction l as [|x l IH]; [done |].
  rewrite filter_cons_False by (apply HP; left).
  apply IH. intros y Hy. apply HP. by right.
Qed.

Lemma calls_zero_window cs : ∀ this,
  timeWindowMs this <= 0 → 0 < maxRequests this →
  StronglySorted Z.le cs.*1 →
  (∀ id l s, requestTimestamps this !! id = Some l → s ∈ l →
             Forall (Z.le s) cs.*1) →
  (calls cs this).1 = replicate (length cs) true.
Proof.
  induction cs as [|[now id] cs IH]; intros this Hw Hmax Hsorted Hold;
    [done |].
  cbn [fmap list_fmap fst] in Hsorted, Hold.
  apply StronglySorted_inv in Hsorted as [Hsorted Hnow].
  assert (Hrecent : recentTimestamps now id this = []).
  { unfold recentTimestamps, timestampsOf. apply filter_none. intros s Hs.
    destruct (requestTimestamps this !! id) as [l|] eqn:E;
      [| by apply elem_of_nil in Hs].
    pose proof (Hold id l s E Hs) as Hle. apply Forall_cons in Hle as [Hle _].
    unfold inWindow. lia. }
  cbn [calls]. unfold isAllowed. rewrite Hrecent. cbn [length app].
  destruct (Z.leb_spec (maxRequests this) (Z.of_nat 0)) as [Hle | _]; [lia |].
  set (this' := {| maxRequests := maxRequests this;
                   timeWindowMs := timeWindowMs this;
                   requestTimestamps := <[id := [now]]> (requestTimestamps this) |}).
  specialize (IH this' Hw Hmax Hsorted).
  destruct (calls cs this') as [bs this''] eqn:E. cbn [fst length replicate] in *.
  f_equal. apply IH. intros id' l s Hl Hs.
  cbn [this' requestTimestamps] in Hl.
  destruct (decide (id = id')) as [<- | Hne].
  - rewrite lookup_insert_eq in Hl. injection Hl as <-.
    apply list_elem_of_singleton in Hs as ->. done.
  - rewrite lookup_insert_ne in Hl by done.
    pose proof (Hold id' l s Hl Hs) as Hle. by apply Forall_cons in Hle as [_ Hle].
Qed.

(** X16 (fixed window, a window of zero or less).  With [timeWindowMs]
    at zero or below and a positive limit, a new limiter whose clock
    does not go back allows every call: each stored timestamp has
    already left the window when the next call looks at it. *)
Theorem zero_window_never_limits options (cs : list (Z * string)) :
  opt_timeWindowMs options <= 0 → 0 < opt_maxRequests options →
  StronglySorted Z.le cs.*1 →
  (calls cs (constructor options)).1 = replicate (length cs) true.
Proof.
  intros Hw Hmax Hsorted. by apply calls_zero_window.
Qed.

Lemma isAllowed_keeps_keys now identifier this other :
  is_Some (requestTimestamps this !! other) →
  is_Some (requestTimestamps (isAllowed now identifier this).2 !! other).
Proof.
  intros Hsome. unfold isAllowed. case_match; [done |].
  cbn [snd requestTimestamps].
  destruct (decide (identifier = other)) as [<- | Hne].
  - by rewrite lookup_insert_eq.
  - by rewrite lookup_insert_ne.
Qed.

(** X17 (fixed window, the map only grows).  No call removes a key: an
    identifier that has an entry keeps one through every later sequence
    of calls, also when all its timestamps have left the window. *)
Theorem identifiers_never_forgotten (cs : list (Z * string)) : ∀ this other,
  is_Some (requestTimestamps this !! other) →
  is_Some (requestTimestamps (calls cs this).2 !! other).
Proof.
  induction cs as [|[now id] cs IH]; intros this other Hsome; [done |].
  cbn [calls].
  pose proof (isAllowed_keeps_keys now id this other Hsome) as Hstep.
  destruct (isAllowed now id this) as [b this']. cbn [snd] in Hstep.
  specialize (IH this' other Hstep).
  by destruct (calls cs this') as [bs this''].
Qed.

Lemma stored_history_bounded_witness :
  requestTimestamps (calls (replicate 5 (0, user123)) limiter).2 !! user123
    = Some [0; 0; 0; 0; 0] ∧
  (1 <= length [0; 0; 0; 0; 0])%nat ∧
  Z.of_nat (length [0; 0; 0; 0; 0]) <= 5.
Proof.
  assert (H : requestTimestamps (calls (replicate 5 (0, user123)) limiter).2
                !! user123 = Some [0; 0; 0; 0; 0]) by (vm_compute; reflexivity).
  split; [exact H |].
  exact (stored_history_bounded
           {| opt_maxRequests := 5; opt_timeWindowMs := 60000 |}
           (replicate 5 (0, user123)) user123 [0; 0; 0; 0; 0] H).
Defined.

Lemma rejection_nothing_stale_witness :
  (isAllowed 59999 user123 (calls (replicate 5 (0, user123)) limiter).2).1
    = false ∧
  recentTimestamps 59999 user123 (calls (replicate 5 (0, user123)) limiter).2
    = timestampsOf user123 (calls (replicate 5 (0, user123)) limiter).2.
Proof.
  assert (H : (isAllowed 59999 user123
                 (calls (replicate 5 (0, user123)) limiter).2).1 = false)
    by (vm_compute; reflexivity).
  split; [exact H |].
  exact (rejection_nothing_stale
           {| opt_maxRequests := 5; opt_timeWindowMs := 60000 |}
           (replicate 5 (0, user123)) 59999 user123 H).
Defined.

Lemma allowed_once_expired_witness :
  0 ∈ timestampsOf user123 (calls (replicate 5 (0, user123)) limiter).2 ∧
  60000 <= 60000 - 0 ∧
  (isAllowed 60000 user123 (calls (replicate 5 (0, user123)) limiter).2).1
    = true.
Proof.
  assert (H : 0 ∈ timestampsOf user123
                    (calls (replicate 5 (0, user123)) limiter).2)
    by (vm_compute; constructor).
  assert (Hold : 60000 <= 60000 - 0) by lia.
  split; [exact H |]. split; [exact Hold |].
  exact (allowed_once_expired
           {| opt_maxRequests := 5; opt_timeWindowMs := 60000 |}
           (replicate 5 (0, user123)) 60000 user123 0 H Hold).
Defined.

Lemma burst_within_window_witness :
  timestampsOf user123 limiter = [] ∧
  (∀ s t, s ∈ [0; 100] → t ∈ [0; 100] → t - s < timeWindowMs limiter) ∧
  (calls [(0, user123); (100, user123)] limiter).1 = [true; true].
Proof.
  assert (Hnone : timestampsOf user123 limiter = []) by reflexivity.
  assert (Hclose : ∀ s t, s ∈ [0; 100] → t ∈ [0; 100] →
                     t - s < timeWindowMs limiter).
  { intros s t Hs Ht. change (timeWindowMs limiter) with 60000.
    set_unfold. lia. }
  split; [exact Hnone |]. split; [exact Hclose |].
  exact (burst_within_window limiter user123 [0; 100] Hnone Hclose).
Defined.

Lemma script_console_witness :
  0 <= 1 ∧ 1 <= 2 ∧ 2 <= 3 ∧ 3 <= 4 ∧ 4 <= 5 ∧ 5 - 0 < 60000 ∧
  (script 0 1 2 3 4 5).2 =
    replicate 5 "Request allowed for user user123" ++
    ["Rate limit exceeded for user user123"].
Proof.
  split_and!; try lia.
  apply (script_console 0 1 2 3 4 5); lia.
Defined.

Lemma sliding_window_guarantee_witness :
  0 < 60000 ∧
  StronglySorted Z.le [(0, user123); (10, user123); (20, user123)].*1 ∧
  Z.of_nat (length (inTrailingWindow 60000 20
                      (granted user123
                         [(0, user123); (10, user123); (20, user123)]
                         limiter))) <= 5.
Proof.
  assert (Hsorted : StronglySorted Z.le
                      [(0, user123); (10, user123); (20, user123)].*1).
  { cbn [fmap list_fmap fst]. repeat constructor; lia. }
  split; [lia |]. split; [exact Hsorted |].
  apply (sliding_window_guarantee
           {| opt_maxRequests := 5; opt_timeWindowMs := 60000 |}
           [(0, user123); (10, user123); (20, user123)] user123 20);
    [reflexivity | exact Hsorted].
Defined.

Lemma nonpositive_limit_rejects_all_witness :
  maxRequests (constructor {| opt_maxRequests := 0; opt_timeWindowMs := 60000 |})
    <= 0 ∧
  calls [(0, user123); (70000, user123)]
    (constructor {| opt_maxRequests := 0; opt_timeWindowMs := 60000 |}) =
  ([false; false],
   constructor {| opt_maxRequests := 0; opt_timeWindowMs := 60000 |}).
Proof.
  assert (Hmax : maxRequests
                   (constructor {| opt_maxRequests := 0;
                                   opt_timeWindowMs := 60000 |}) <= 0)
    by (cbn; lia).
  split; [exact Hmax |].
  exact (nonpositive_limit_rejects_all [(0, user123); (70000, user123)] _ Hmax).
Defined.

Lemma zero_window_never_limits_witness :
  0 <= 0 ∧ 0 < 1 ∧
  StronglySorted Z.le [(5, user123); (5, user123); (6, user123)].*1 ∧
  (calls [(5, user123); (5, user123); (6, user123)]
     (constructor {| opt_maxRequests := 1; opt_timeWindowMs := 0 |})).1 =
  [true; true; true].
Proof.
  assert (Hsorted : StronglySorted Z.le
                      [(5, user123); (5, user123); (6, user123)].*1).
  { cbn [fmap list_fmap fst]. repeat constructor; lia. }
  split; [lia |]. split; [lia |]. split; [exact Hsorted |].
  apply (zero_window_never_limits
           {| opt_maxRequests := 1; opt_timeWindowMs := 0 |}
           [(5, user123); (5, user123); (6, user123)]);
    [cbn; lia | cbn; lia | exact Hsorted].
Defined.

Lemma identifiers_never_forgotten_witness :
  is_Some (requestTimestamps after_five !! user123) ∧
  is_Some (requestTimestamps
             (calls [(100000, "other"); (200000, "other")] after_five).2
             !! user123).
Proof.
  assert (Hsome : is_Some (requestTimestamps after_five !! user123))
    by (vm_compute; eexists; reflexivity).
  split; [exact Hsome |].
  exact (identifiers_never_forgotten [(100000, "other"); (200000, "other")]
           after_five user123 Hsome).
Defined.

End FixedWindowProps.

(** * Properties of the token-bucket limiter *)
Module TokenBucketProps.
Import Binary64 Binary64Facts TokenBucket.

Section Frame.
Variables (now : Z) (tokensRequested : number) (this : TokenBucketRateLimiter).

Lemma isAllowed_lastCheckedAt :
  lastCheckedAt (isAllowed now tokensRequested this).2 = now.
Proof. unfold isAllowed. by case_match. Qed.

Lemma isAllowed_parameters :
  capacity (isAllowed now tokensRequested this).2 = capacity this ∧
  rate (isAllowed now tokensRequested this).2 = rate this.
Proof. unfold isAllowed. by case_match. Qed.

Lemma isAllowed_true_iff :
  (isAllowed now tokensRequested this).1 = true ↔
  geb (refill now this) tokensRequested = true.
Proof. unfold isAllowed. by case_match. Qed.

Lemma isAllowed_tokens :
  tokens (isAllowed now tokensRequested this).2 =
    if (isAllowed now tokensRequested this).1
    then sub (refill now this) tokensRequested
    else refill now this.
Proof. unfold isAllowed. by case_match. Qed.
End Frame.

(** The elapsed seconds and the refilled amount, when the clock has not
    gone back. *)
Lemma timePassed_facts this now :
  timeValue (lastCheckedAt this) → timeValue now →
  lastCheckedAt this <= now →
  is_number (timePassed now this) ∧ leb zero (timePassed now this) = true.
Proof.
  intros Hlast Hnow Hclock. unfold timePassed.
  rewrite sub_ofZ by (by apply timeValue_exact). split.
  - auto with number.
  - apply div_nonneg; [apply ofZ_nonneg; lia | done | done].
Qed.

Lemma refill_facts this now :
  wellFormed this → leb zero (tokens this) = true →
  timeValue now → lastCheckedAt this <= now →
  is_number (refill now this) ∧
  finite (refill now this) = true ∧
  leb zero (refill now this) = true ∧
  leb (refill now this) (capacity this) = true.
Proof.
  intros ((Hc & Hr & Hfc & Hfr & Hc0 & Hr0) & Ht & Hlast) Ht0 Hnow Hclock.
  destruct (timePassed_facts this now Hlast Hnow Hclock) as [Htp Htp0].
  unfold refill.
  set (added := mul (timePassed now this) (rate this)).
  assert (Hadd : is_number added) by (unfold added; auto with number).
  assert (Hadd0 : leb zero added = true) by (by apply mul_nonneg).
  set (sum := add (tokens this) added).
  assert (Hsum : is_number sum) by (unfold sum; auto with number).
  assert (Hsum0 : leb zero sum = true) by (by apply add_nonneg).
  assert (Hcnan : capacity this ≠ S754_nan) by (by destruct (capacity this)).
  assert (Hsnan : sum ≠ S754_nan) by (by apply nonneg_not_nan).
  assert (Hle : leb (Math_min (capacity this) sum) (capacity this) = true)
    by (by apply Math_min_leb_l).
  assert (Hmin0 : leb zero (Math_min (capacity this) sum) = true).
  { destruct (Math_min_cases (capacity this) sum) as [-> | ->]; try done.
    - rewrite compare_None. tauto.
    - by apply ltb_leb. }
  split_and!; try done.
  - destruct (Math_min_cases (capacity this) sum) as [-> | ->]; try done.
    rewrite compare_None. tauto.
  - by apply (between_finite _ (capacity this)).
Qed.



(** C10, counterexample.  Subtracting an amount below zero need not
    increase the tokens: on [largeBucket], full with [2 ^ 53] tokens,
    [isAllowed(-1)] returns [true] and leaves [2 ^ 53] tokens, since
    [2 ^ 53 + 1] rounds to [2 ^ 53]. *)
Lemma negative_request_absorbed :
  wellFormed largeBucket ∧ tokensInRange largeBucket ∧
  timeValue 0 ∧ lastCheckedAt largeBucket <= 0 ∧
  is_number (ofZ (-1)) ∧ ltb (ofZ (-1)) zero = true ∧
  (isAllowed 0 (ofZ (-1)) largeBucket).1 = true ∧
  refill 0 largeBucket = ofZ 9007199254740992 ∧
  tokens (isAllowed 0 (ofZ (-1)) largeBucket).2 = ofZ 9007199254740992 ∧
  ltb (refill 0 largeBucket) (tokens (isAllowed 0 (ofZ (-1)) largeBucket).2) = false.
Proof.
  unfold wellFormed, tokensInRange, validParameters, is_number, timeValue.
  split_and!; by vm_compute.
Qed.

(** C10 (token bucket, the argument is not validated), amended.  A call
    that asks for zero or fewer tokens returns [true] whenever the tokens
    after the refill are not negative, whatever the limiter and the
    clock, and leaves the refilled amount minus the amount asked for.
    That is the case when the tokens were not negative before the call,
    on a limiter built from valid parameters whose clock has not gone
    back; when the amount asked for is below zero, what is left is then
    never less than the refilled amount, and for some calls it is more
    than the capacity. *)
Theorem nonpositive_request_allowed :
  (∀ this now tokensRequested,
     leb zero (refill now this) = true →
     leb tokensRequested zero = true →
     (isAllowed now tokensRequested this).1 = true ∧
     tokens (isAllowed now tokensRequested this).2 =
       sub (refill now this) tokensRequested) ∧
  (∀ this now tokensRequested,
     wellFormed this → leb zero (tokens this) = true →
     timeValue now → lastCheckedAt this <= now →
     is_number tokensRequested →
     leb tokensRequested zero = true →
     leb zero (refill now this) = true ∧
     (isAllowed now tokensRequested this).1 = true ∧
     tokens (isAllowed now tokensRequested this).2 =
       sub (refill now this) tokensRequested ∧
     (ltb tokensRequested zero = true →
      leb (refill now this) (tokens (isAllowed now tokensRequested this).2) = true)) ∧
  (∃ this now tokensRequested,
     wellFormed this ∧ tokensInRange this ∧
     timeValue now ∧ lastCheckedAt this <= now ∧
     is_number tokensRequested ∧ ltb tokensRequested zero = true ∧
     (isAllowed now tokensRequested this).1 = true ∧
     ltb (capacity this) (tokens (isAllowed now tokensRequested this).2) = true).
Proof.
  assert (Hany : ∀ this now req,
            leb zero (refill now this) = true → leb req zero = true →
            (isAllowed now req this).1 = true ∧
            tokens (isAllowed now req this).2 = sub (refill now this) req).
  { intros this now req Hr0 Hreq0.
    assert (Hres : (isAllowed now req this).1 = true).
    { apply isAllowed_true_iff. by apply leb_across_zero. }
    by rewrite isAllowed_tokens, Hres. }
  split_and!.
  - exact Hany.
  - intros this now req Hwf Ht0 Hnow Hclock Hreq Hreq0.
    destruct (refill_facts this now Hwf Ht0 Hnow Hclock) as (Hr & Hrf & Hr0 & Hrc).
    destruct (Hany this now req Hr0 Hreq0) as [Hres Htok].
    split_and!; try done.
    intros Hneg. rewrite Htok. by apply sub_negative_above.
  - exists (bucketRateLimiter 0), 0, (ofZ (-5)).
    unfold wellFormed, tokensInRange, validParameters, is_number, timeValue.
    split_and!; by vm_compute.
Qed.

(** The clock matters to the second part: on the example limiter emptied
    at reading 1000, the refill computed at reading 0 is [-1], and
    [isAllowed(0)] is denied although no token was owed before the
    call. *)
Lemma zero_request_after_step_back :
  leb zero
    (tokens (calls (repeat (1000, ofZ 1) 10) (bucketRateLimiter 1000)).2)
    = true ∧
  leb (ofZ 0) zero = true ∧
  refill 0 (calls (repeat (1000, ofZ 1) 10) (bucketRateLimiter 1000)).2
    = ofZ (-1) ∧
  (isAllowed 0 (ofZ 0)
     (calls (repeat (1000, ofZ 1) 10) (bucketRateLimiter 1000)).2).1 = false.
Proof. split_and!; by vm_compute. Qed.

(** C4 (token bucket, inclusive boundary).  When the tokens after the
    refill equal the finite amount requested, [isAllowed] returns [true]
    and the tokens left are zero. *)
Theorem boundary_inclusive this now tokensRequested :
  finite tokensRequested = true →
  eqb (refill now this) tokensRequested = true →
  (isAllowed now tokensRequested this).1 = true ∧
  is_zero (tokens (isAllowed now tokensRequested this).2) = true.
Proof.
  intros Hfin Heq.
  assert (Hok : (isAllowed now tokensRequested this).1 = true).
  { apply isAllowed_true_iff. by apply eqb_geb. }
  split; [done |].
  rewrite isAllowed_tokens, Hok. by apply sub_eqb_zero.
Qed.

(** C6 (token bucket, the clock always advances).  Every call stores the
    current time in [lastCheckedAt], also a denied one; after a denied
    call the tokens are the refilled and clamped amount
    [min(capacity, tokens + elapsedSeconds * rate)], and capacity and rate
    are as before. *)
Theorem denied_call_effect this now tokensRequested :
  lastCheckedAt (isAllowed now tokensRequested this).2 = now ∧
  capacity (isAllowed now tokensRequested this).2 = capacity this ∧
  rate (isAllowed now tokensRequested this).2 = rate this ∧
  ((isAllowed now tokensRequested this).1 = false →
   tokens (isAllowed now tokensRequested this).2 =
     Math_min (capacity this)
       (add (tokens this)
            (mul (div (sub (ofZ now) (ofZ (lastCheckedAt this))) (ofZ 1000))
                 (rate this)))).
Proof.
  pose proof (isAllowed_parameters now tokensRequested this) as [Hc Hr].
  split_and!; try done.
  - apply isAllowed_lastCheckedAt.
  - intros Hf. by rewrite isAllowed_tokens, Hf.
Qed.

(** One call on the example limiter at the instant of its last check. *)
Lemma example_step (t0 : Z) (x x' : number) (b : bool) :
  timeValue t0 →
  isAllowed 0 (ofZ 1)
    {| capacity := ofZ 10; rate := ofZ 1; lastCheckedAt := 0; tokens := x |} =
  (b, {| capacity := ofZ 10; rate := ofZ 1; lastCheckedAt := 0; tokens := x' |}) →
  isAllowed t0 (ofZ 1)
    {| capacity := ofZ 10; rate := ofZ 1; lastCheckedAt := t0; tokens := x |} =
  (b, {| capacity := ofZ 10; rate := ofZ 1; lastCheckedAt := t0; tokens := x' |}).
Proof.
  intros Ht0.
  unfold isAllowed, refill, timePassed. cbn [lastCheckedAt capacity rate tokens].
  rewrite (sub_ofZ t0 t0) by (by apply timeValue_exact).
  rewrite (sub_ofZ 0 0) by (vm_compute; done).
  rewrite !Z.sub_diag. case_match; intros [= <- <-]; done.
Qed.

(** C8 (token bucket, initial burst and refill).  On a limiter built with
    capacity 10 and rate 1, the first ten [isAllowed(1)] at the instant of
    construction return [true], the eleventh at that instant [false]
    and no token is left; 1000 ms later the refill adds exactly one
    token, a further [isAllowed(1)] returns [true] and takes it, while
    one millisecond earlier the refill is still below one token and the
    call is denied. *)
Theorem initial_burst_then_refill (t0 : Z) :
  timeValue t0 → timeValue (t0 + 1000) →
  (calls (repeat (t0, ofZ 1) 11) (bucketRateLimiter t0)).1 =
    repeat true 10 ++ [false] ∧
  (isAllowed (t0 + 1000) (ofZ 1)
     (calls (repeat (t0, ofZ 1) 11) (bucketRateLimiter t0)).2).1 = true ∧
  tokens (calls (repeat (t0, ofZ 1) 11) (bucketRateLimiter t0)).2 = zero ∧
  refill (t0 + 1000)
    (calls (repeat (t0, ofZ 1) 11) (bucketRateLimiter t0)).2 = ofZ 1 ∧
  tokens (isAllowed (t0 + 1000) (ofZ 1)
            (calls (repeat (t0, ofZ 1) 11) (bucketRateLimiter t0)).2).2
    = zero ∧
  ltb (refill (t0 + 999)
         (calls (repeat (t0, ofZ 1) 11) (bucketRateLimiter t0)).2) (ofZ 1)
    = true ∧
  (isAllowed (t0 + 999) (ofZ 1)
     (calls (repeat (t0, ofZ 1) 11) (bucketRateLimiter t0)).2).1 = false.
Proof.
  intros Ht0 Ht1.
  assert (Ht9 : timeValue (t0 + 999)) by (unfold timeValue in *; lia).
  unfold bucketRateLimiter, constructor. cbn [repeat calls].
  do 11 (erewrite (example_step t0) by first [exact Ht0 | vm_compute; reflexivity]).
  cbn [fst snd app repeat].
  unfold isAllowed, refill, timePassed. cbn [lastCheckedAt capacity rate tokens].
  rewrite !sub_ofZ by (by apply timeValue_exact).
  replace (t0 + 1000 - t0) with 1000 by lia.
  replace (t0 + 999 - t0) with 999 by lia.
  split_and!; vm_compute; reflexivity.
Qed.

Lemma initial_burst_then_refill_witness :
  timeValue 0 ∧ timeValue (0 + 1000) ∧
  (calls (repeat (0, ofZ 1) 11) (bucketRateLimiter 0)).1 =
    repeat true 10 ++ [false] ∧
  (isAllowed (0 + 1000) (ofZ 1)
     (calls (repeat (0, ofZ 1) 11) (bucketRateLimiter 0)).2).1 = true ∧
  refill (0 + 1000)
    (calls (repeat (0, ofZ 1) 11) (bucketRateLimiter 0)).2 = ofZ 1.
Proof.
  assert (H0 : timeValue 0) by (vm_compute; discriminate).
  assert (H1 : timeValue (0 + 1000)) by (vm_compute; discriminate).
  destruct (initial_burst_then_refill 0 H0 H1) as (Hb & Hr & _ & Hone & _).
  split; [exact H0 |]. split; [exact H1 |].
  split; [exact Hb |]. split; [exact Hr | exact Hone].
Defined.


Lemma nonpositive_request_allowed_witness :
  wellFormed (bucketRateLimiter 0) ∧
  leb zero (tokens (bucketRateLimiter 0)) = true ∧
  timeValue 250 ∧ lastCheckedAt (bucketRateLimiter 0) <= 250 ∧
  is_number (ofZ (-3)) ∧ leb (ofZ (-3)) zero = true ∧
  (isAllowed 250 (ofZ (-3)) (bucketRateLimiter 0)).1 = true.
Proof.
  assert (Hwf : wellFormed (bucketRateLimiter 0)).
  { unfold wellFormed, validParameters, is_number, timeValue.
    repeat split; try reflexivity. vm_compute. discriminate. }
  assert (Ht : timeValue 250) by (vm_compute; discriminate).
  assert (Hclock : lastCheckedAt (bucketRateLimiter 0) <= 250).
  { vm_compute. discriminate. }
  split; [exact Hwf |]. split; [reflexivity |]. split; [exact Ht |].
  split; [exact Hclock |]. split; [reflexivity |]. split; [reflexivity |].
  refine (proj1 (proj2 (proj1 (proj2 nonpositive_request_allowed)
                          (bucketRateLimiter 0) 250 (ofZ (-3))
                          Hwf _ Ht Hclock _ _)));
    reflexivity.
Defined.

Lemma boundary_inclusive_witness :
  finite (ofZ 10) = true ∧
  eqb (refill 0 (bucketRateLimiter 0)) (ofZ 10) = true ∧
  (isAllowed 0 (ofZ 10) (bucketRateLimiter 0)).1 = true ∧
  is_zero (tokens (isAllowed 0 (ofZ 10) (bucketRateLimiter 0)).2) = true.
Proof.
  split; [reflexivity |]. split; [vm_compute; reflexivity |].
  apply (boundary_inclusive (bucketRateLimiter 0) 0 (ofZ 10)).
  - reflexivity.
  - vm_compute; reflexivity.
Defined.

Lemma denied_call_effect_witness :
  (isAllowed 500 (ofZ 11) (bucketRateLimiter 0)).1 = false ∧
  lastCheckedAt (isAllowed 500 (ofZ 11) (bucketRateLimiter 0)).2 = 500 ∧
  tokens (isAllowed 500 (ofZ 11) (bucketRateLimiter 0)).2 = ofZ 10.
Proof.
  destruct (denied_call_effect (bucketRateLimiter 0) 500 (ofZ 11))
    as (Hl & _ & _ & Ht).
  split; [vm_compute; reflexivity |]. split; [exact Hl |].
  rewrite Ht; vm_compute; reflexivity.
Defined.

(** The limiter over sequences of calls *)

Lemma isAllowed_keeps_range this now tokensRequested :
  wellFormed this → tokensInRange this →
  timeValue now → lastCheckedAt this <= now →
  is_number tokensRequested → ltb zero tokensRequested = true →
  wellFormed (isAllowed now tokensRequested this).2 ∧
  tokensInRange (isAllowed now tokensRequested this).2.
Proof.
  intros Hwf [Ht0 Htc] Hnow Hclock Hreq Hreq0.
  destruct (refill_facts this now Hwf Ht0 Hnow Hclock) as (Hr & Hrf & Hr0 & Hrc).
  destruct Hwf as (Hp & Ht & Hlast).
  pose proof (isAllowed_parameters now tokensRequested this) as [Hcap Hrate].
  pose proof (isAllowed_tokens now tokensRequested this) as Htok.
  pose proof (isAllowed_lastCheckedAt now tokensRequested this) as Hnew.
  unfold wellFormed, tokensInRange. rewrite Hcap, Hrate, Htok, Hnew.
  destruct (isAllowed now tokensRequested this).1 eqn:Hres; [|done].
  apply isAllowed_true_iff in Hres.
  destruct (sub_bounds (refill now this) tokensRequested Hr Hreq Hrf Hreq0 Hres)
    as (Hsf & Hs0 & Hsr).
  pose proof Hp as (Hc & _ & Hfc & _).
  assert (Hsub : is_number (sub (refill now this) tokensRequested))
    by auto with number.
  split_and!; try done.
  by apply (leb_trans _ (refill now this)).
Qed.

Lemma calls_keep_range cs : ∀ this,
  wellFormed this → tokensInRange this →
  forwardCalls (lastCheckedAt this) cs →
  wellFormed (calls cs this).2 ∧ tokensInRange (calls cs this).2.
Proof.
  induction cs as [|[now n] cs IH]; intros this Hwf Hrange [Hsorted Hall];
    [done|].
  cbn [calls].
  pose proof (isAllowed_keeps_range this now n) as Hstep.
  pose proof (isAllowed_lastCheckedAt now n this) as Hlast.
  destruct (isAllowed now n this) as [b this'].
  cbn [fst snd] in Hstep, Hlast.
  apply Forall_cons in Hall as [(Hnow & Hn & Hn0) Hall].
  cbn [fmap list_fmap fst] in Hsorted.
  apply StronglySorted_inv in Hsorted as [Hsorted Hfirst].
  apply Forall_cons in Hfirst as [Hle _]. cbn [fst snd] in *.
  destruct (Hstep Hwf Hrange Hnow Hle Hn Hn0) as [Hwf' Hrange'].
  specialize (IH this' Hwf' Hrange').
  rewrite Hlast in IH. specialize (IH (conj Hsorted Hall)).
  by destruct (calls cs this') as [bs this''].
Qed.

(** X7 (token bucket, the range holds along every run).  A limiter built
    from valid parameters and then called any number of times, by a
    clock that does not go back and for amounts above zero, ends
    well formed with [0 <= tokens <= capacity]. *)
Theorem trace_keeps_range (now0 : Z) (capacity rate : number)
    (cs : list (Z * number)) :
  validParameters capacity rate → timeValue now0 →
  forwardCalls now0 cs →
  wellFormed (calls cs (constructor now0 capacity rate)).2 ∧
  tokensInRange (calls cs (constructor now0 capacity rate)).2.
Proof.
  intros Hp Hnow Hcs.
  pose proof Hp as (Hc & Hr & Hfc & Hfr & Hc0 & Hr0).
  apply calls_keep_range; [| |done].
  - by split_and!.
  - split; [by apply ltb_leb |]. apply leb_refl. by destruct capacity.
Qed.

(** The refilled amount against the tokens held before *)
Lemma refill_sum_facts this now :
  wellFormed this → leb zero (tokens this) = true →
  timeValue now → lastCheckedAt this <= now →
  is_number (mul (timePassed now this) (rate this)) ∧
  leb zero (mul (timePassed now this) (rate this)) = true ∧
  is_number (add (tokens this) (mul (timePassed now this) (rate this))) ∧
  leb (tokens this)
      (add (tokens this) (mul (timePassed now this) (rate this))) = true ∧
  leb (mul (timePassed now this) (rate this))
      (add (tokens this) (mul (timePassed now this) (rate this))) = true.
Proof.
  intros ((Hc & Hr & Hfc & Hfr & Hc0 & Hr0) & Ht & Hlast) Ht0 Hnow Hclock.
  destruct (timePassed_facts this now Hlast Hnow Hclock) as [Htp Htp0].
  set (added := mul (timePassed now this) (rate this)).
  assert (Hadd : is_number added) by (unfold added; auto with number).
  assert (Hadd0 : leb zero added = true) by (by apply mul_nonneg).
  split_and!; try done.
  - auto with number.
  - by apply add_above.
  - rewrite add_comm. by apply add_above.
Qed.

(** X8 (token bucket, refilling never takes tokens away).  When the
    clock has not gone back, the refilled amount is at least the tokens
    held before the call, so a denied call never leaves fewer tokens
    than it found. *)
Theorem refill_never_lowers this now tokensRequested :
  wellFormed this → tokensInRange this →
  timeValue now → lastCheckedAt this <= now →
  leb (tokens this) (refill now this) = true ∧
  ((isAllowed now tokensRequested this).1 = false →
   leb (tokens this) (tokens (isAllowed now tokensRequested this).2) = true).
Proof.
  intros Hwf [Ht0 Htc] Hnow Hclock.
  destruct (refill_sum_facts this now Hwf Ht0 Hnow Hclock)
    as (Hadd & Hadd0 & Hsum & Hts & _).
  destruct Hwf as ((Hc & Hr & Hfc & Hfr & Hc0 & Hr0) & Ht & Hlast).
  assert (Hre : leb (tokens this) (refill now this) = true).
  { unfold refill. apply Math_min_above; try done.
    - by destruct (capacity this).
    - apply nonneg_not_nan. by apply add_nonneg. }
  split; [done|]. intros Hres.
  by rewrite isAllowed_tokens, Hres.
Qed.

(** X9 (token bucket, the clamp).  When the clock has not gone back, the
    refilled amount is exactly the capacity in two cases: the bucket was
    full, or the amount computed for the elapsed time alone reaches the
    capacity. *)
Theorem refill_saturates this now :
  wellFormed this → leb zero (tokens this) = true →
  timeValue now → lastCheckedAt this <= now →
  tokens this = capacity this ∨
  leb (capacity this) (mul (timePassed now this) (rate this)) = true →
  refill now this = capacity this.
Proof.
  intros Hwf Ht0 Hnow Hclock Hcase.
  destruct (refill_sum_facts this now Hwf Ht0 Hnow Hclock)
    as (Hadd & Hadd0 & Hsum & Hts & Has).
  destruct Hwf as ((Hc & Hr & Hfc & Hfr & Hc0 & Hr0) & Ht & Hlast).
  unfold refill. apply Math_min_l; [done|].
  destruct Hcase as [Hfull | Hreach].
  - by rewrite <- Hfull at 1.
  - by apply (leb_trans_all _ (mul (timePassed now this) (rate this))).
Qed.

(** X10 (token bucket, what is never granted).  When the clock has not
    gone back, a request for more than the capacity is denied whatever
    time has passed, and so is a request for NaN on any limiter; either
    call leaves the refilled amount. *)
Theorem beyond_capacity_denied this now tokensRequested :
  (wellFormed this → leb zero (tokens this) = true →
   timeValue now → lastCheckedAt this <= now →
   is_number tokensRequested →
   ltb (capacity this) tokensRequested = true →
   (isAllowed now tokensRequested this).1 = false ∧
   tokens (isAllowed now tokensRequested this).2 = refill now this) ∧
  ((isAllowed now S754_nan this).1 = false ∧
   tokens (isAllowed now S754_nan this).2 = refill now this).
Proof.
  split.
  - intros Hwf Ht0 Hnow Hclock Hreq Habove.
    destruct (refill_facts this now Hwf Ht0 Hnow Hclock)
      as (Hr & Hrf & Hr0 & Hrc).
    destruct Hwf as ((Hc & _) & _).
    assert (Hres : (isAllowed now tokensRequested this).1 = false).
    { destruct (isAllowed now tokensRequested this).1 eqn:Hres; [|done].
      apply isAllowed_true_iff in Hres. unfold geb in Hres.
      apply ltb_not_leb in Habove.
      by rewrite (leb_trans_all tokensRequested (refill now this) (capacity this))
        in Habove. }
    by rewrite isAllowed_tokens, Hres.
  - assert (Hres : (isAllowed now S754_nan this).1 = false).
    { destruct (isAllowed now S754_nan this).1 eqn:Hres; [|done].
      apply isAllowed_true_iff in Hres. unfold geb in Hres.
      by destruct (refill now this) as [|[]| |]. }
    by rewrite isAllowed_tokens, Hres.
Qed.

(** NaN in the limiter *)
Lemma Math_min_nan (x y : number) :
  x = S754_nan ∨ y = S754_nan → Math_min x y = S754_nan.
Proof.
  intros H. unfold Math_min. by rewrite (proj2 (compare_None x y) H).
Qed.

Lemma refill_poisoned this now : poisoned this → refill now this = S754_nan.
Proof.
  intros [Hc | [Hr | Ht]]; unfold refill; apply Math_min_nan.
  - by left.
  - right. rewrite Hr.
    assert (mul (timePassed now this) S754_nan = S754_nan) as ->
      by (by destruct (timePassed now this)).
    by destruct (tokens this).
  - right. by rewrite Ht.
Qed.

Lemma isAllowed_poisoned this now tokensRequested :
  poisoned this →
  (isAllowed now tokensRequested this).1 = false ∧
  poisoned (isAllowed now tokensRequested this).2.
Proof.
  intros Hp. pose proof (refill_poisoned this now Hp) as Hre.
  assert (Hres : (isAllowed now tokensRequested this).1 = false).
  { destruct (isAllowed now tokensRequested this).1 eqn:Hres; [|done].
    apply isAllowed_true_iff in Hres. rewrite Hre in Hres. unfold geb in Hres.
    by destruct tokensRequested as [|[]| |]. }
  split; [done|]. right; right.
  by rewrite isAllowed_tokens, Hres.
Qed.

(** X11 (token bucket, NaN is never recovered from).  The constructor
    validates nothing: once the capacity, the rate or the tokens are
    NaN, every later call is denied, whatever it asks for and whenever
    it is made, and the limiter stays in that condition. *)
Theorem poisoned_denies_forever (cs : list (Z * number)) : ∀ this,
  poisoned this →
  (calls cs this).1 = replicate (length cs) false ∧
  poisoned (calls cs this).2.
Proof.
  induction cs as [|[now n] cs IH]; intros this Hp; [done|].
  cbn [calls].
  destruct (isAllowed_poisoned this now n Hp) as [Hres Hp'].
  destruct (isAllowed now n this) as [b this']. cbn [fst snd] in *.
  destruct (IH this' Hp') as [Hbs Hpp].
  destruct (calls cs this') as [bs this'']. cbn [fst snd length replicate] in *.
  by rewrite Hres, Hbs.
Qed.

(** Whole tokens at one instant *)
Lemma isAllowed_whole (c a n t0 : Z) (r : number) :
  0 < c < 2 ^ prec → 0 <= a <= c → 0 <= n < 2 ^ prec →
  ltb zero r = true → finite r = true → timeValue t0 →
  isAllowed t0 (ofZ n) (wholeBucket c a t0 r) =
  (n <=? a, wholeBucket c (if n <=? a then a - n else a) t0 r).
Proof.
  intros Hc Ha Hn Hr0 Hfr Ht0.
  assert (Hrefill : refill t0 (wholeBucket c a t0 r) = ofZ a).
  { unfold refill, timePassed.
    cbn [wholeBucket capacity rate lastCheckedAt tokens].
    rewrite sub_ofZ by (by apply timeValue_exact). rewrite Z.sub_diag.
    assert (div (ofZ 0) (ofZ 1000) = S754_zero false) as ->
      by (vm_compute; reflexivity).
    assert (mul (S754_zero false) r = S754_zero false) as ->.
    { apply ltb_zero_iff in Hr0. by destruct r as [|[]| |[]]. }
    rewrite add_ofZ_zero by lia. apply Math_min_ofZ; lia. }
  unfold isAllowed. rewrite Hrefill. unfold geb.
  change (SFleb (ofZ n) (ofZ a)) with (leb (ofZ n) (ofZ a)).
  rewrite leb_ofZ by lia.
  cbn [wholeBucket capacity rate lastCheckedAt tokens].
  destruct (n <=? a) eqn:E; [|done].
  by rewrite sub_ofZ by lia.
Qed.

(** X12 (token bucket, whole tokens are counted exactly).  With a whole
    capacity below [2 ^ 53], calls made at the reading of the last call,
    each for a whole number of tokens, are answered as an exact counter
    of whole tokens answers them, and leave that counter's count: no
    rounding takes place and nothing is refilled. *)
Theorem whole_tokens_exact (c t0 : Z) (r : number) (requests : list Z) :
  ∀ a : Z,
  0 < c < 2 ^ prec → 0 <= a <= c →
  Forall (λ n, 0 <= n < 2 ^ prec) requests →
  ltb zero r = true → finite r = true → timeValue t0 →
  calls (atInstant t0 requests) (wholeBucket c a t0 r) =
  ((exactCounter a requests).1,
   wholeBucket c (exactCounter a requests).2 t0 r).
Proof.
  induction requests as [|n ns IH]; intros a Hc Ha Hall Hr0 Hfr Ht0; [done|].
  apply Forall_cons in Hall as [Hn Hall].
  cbn [atInstant fmap list_fmap calls exactCounter].
  rewrite isAllowed_whole by done.
  destruct (Z.leb_spec n a) as [Hle | Hgt].
  - specialize (IH (a - n) Hc ltac:(lia) Hall Hr0 Hfr Ht0).
    unfold atInstant in IH. rewrite IH.
    by destruct (exactCounter (a - n) ns).
  - specialize (IH a Hc Ha Hall Hr0 Hfr Ht0).
    unfold atInstant in IH. rewrite IH.
    by destruct (exactCounter a ns).
Qed.

Lemma burst_from (c k t0 : Z) (r : number) (count : nat) : ∀ a : Z,
  0 < c < 2 ^ prec → 0 <= a <= c → 0 < k < 2 ^ prec →
  ltb zero r = true → finite r = true → timeValue t0 →
  (calls (atInstant t0 (replicate count k)) (wholeBucket c a t0 r)).1 =
  replicate (count `min` Z.to_nat (a / k)) true ++
  replicate (count - Z.to_nat (a / k)) false.
Proof.
  induction count as [|count IH]; intros a Hc Ha Hk Hr0 Hfr Ht0; [done|].
  cbn [atInstant replicate fmap list_fmap calls].
  rewrite isAllowed_whole by (done || lia).
  destruct (Z.leb_spec k a) as [Hle | Hgt].
  - specialize (IH (a - k) Hc ltac:(lia) Hk Hr0 Hfr Ht0).
    unfold atInstant in IH.
    destruct (calls _ (wholeBucket c (a - k) t0 r)) as [bs this']. cbn [fst] in *.
    rewrite IH.
    assert (Hdiv : a / k = (a - k) / k + 1).
    { replace a with ((a - k) + 1 * k) at 1 by lia.
      rewrite Z.div_add by lia. done. }
    assert (0 <= (a - k) / k) by (apply Z.div_pos; lia).
    replace (Z.to_nat (a / k)) with (S (Z.to_nat ((a - k) / k))) by lia.
    done.
  - specialize (IH a Hc Ha Hk Hr0 Hfr Ht0). unfold atInstant in IH.
    destruct (calls _ (wholeBucket c a t0 r)) as [bs this']. cbn [fst] in *.
    rewrite IH, Z.div_small by lia.
    change (Z.to_nat 0) with 0%nat.
    by rewrite !Nat.min_0_r, !Nat.sub_0_r.
Qed.

(** X13 (token bucket, the size of a burst).  A limiter just built with
    a whole capacity [c] below [2 ^ 53] and called [count] times at the
    reading of its construction, each time for the same whole number [k]
    of tokens, grants the first [c / k] calls, rounded down, and denies
    the rest. *)
Theorem whole_burst (c k t0 : Z) (r : number) (count : nat) :
  0 < c < 2 ^ prec → 0 < k < 2 ^ prec →
  ltb zero r = true → finite r = true → timeValue t0 →
  (calls (atInstant t0 (replicate count k)) (constructor t0 (ofZ c) r)).1 =
  replicate (count `min` Z.to_nat (c / k)) true ++
  replicate (count - Z.to_nat (c / k)) false.
Proof.
  intros Hc Hk Hr0 Hfr Ht0.
  change (constructor t0 (ofZ c) r) with (wholeBucket c c t0 r).
  apply burst_from; (done || lia).
Qed.

(** The refill after whole seconds *)
Lemma timePassed_above this now (k : Z) :
  timeValue (lastCheckedAt this) → timeValue now →
  0 < k → 1000 * k < 2 ^ prec →
  1000 * k <= now - lastCheckedAt this →
  leb (ofZ k) (timePassed now this) = true.
Proof.
  intros Hlast Hnow Hk Hlt Hle. unfold timePassed.
  rewrite sub_ofZ by (by apply timeValue_exact).
  assert (H2 : 2 ^ prec = 9007199254740992) by reflexivity.
  pose proof (pow2_pos (- emin) ltac:(pose proof emin_eq; lia)) as HP.
  apply (div_above _ (ofZ (1000 * k))); try apply ofZ_valid;
    try (apply ofZ_finite; lia).
  - apply ofZ_nonneg. lia.
  - change zero with (ofZ 0). rewrite ltb_ofZ by lia. apply Z.ltb_lt. lia.
  - change zero with (ofZ 0). rewrite ltb_ofZ by lia. apply Z.ltb_lt. lia.
  - apply ofZ_mono; lia.
  - rewrite !scaled_ofZ by lia. lia.
Qed.

(** X14 (token bucket, an idle bucket fills up).  With a whole capacity
    [c] and a whole rate [r] below [2 ^ 53], once [k] whole seconds have
    passed since the last call and [k * r] reaches [c], the refilled
    amount is exactly the capacity, whatever the tokens were, and every
    request for at most the capacity is granted; the roundings of the
    division and of the product never leave it short. *)
Theorem idle_refills_to_capacity this now (c r k : Z) :
  capacity this = ofZ c → rate this = ofZ r →
  0 < c < 2 ^ prec → 0 < r < 2 ^ prec →
  is_number (tokens this) → leb zero (tokens this) = true →
  timeValue (lastCheckedAt this) → timeValue now →
  1000 * k < 2 ^ prec → 1000 * k <= now - lastCheckedAt this →
  c <= k * r →
  refill now this = capacity this ∧
  ∀ tokensRequested,
    leb tokensRequested (capacity this) = true →
    (isAllowed now tokensRequested this).1 = true.
Proof.
  intros Hcap Hrate Hc Hr Ht Ht0 Hlast Hnow Hlt Hle Hreach.
  assert (H2 : 2 ^ prec = 9007199254740992) by reflexivity.
  assert (Hk : 0 < k) by nia.
  pose proof (pow2_pos (- emin) ltac:(pose proof emin_eq; lia)) as HP.
  assert (Hzero : ∀ a, 0 < a < 2 ^ prec → ltb zero (ofZ a) = true).
  { intros a Ha. change zero with (ofZ 0). rewrite ltb_ofZ by lia.
    apply Z.ltb_lt. lia. }
  assert (Hwf : wellFormed this).
  { unfold wellFormed, validParameters. rewrite Hcap, Hrate.
    split_and!; try apply ofZ_valid; try (apply ofZ_finite; lia);
      try (apply Hzero; lia); done. }
  assert (Hclock : lastCheckedAt this <= now) by lia.
  assert (Hfull : refill now this = capacity this).
  { destruct (refill_sum_facts this now Hwf Ht0 Hnow Hclock)
      as (Hadd & Hadd0 & Hsum & Hts & Has).
    unfold refill. apply Math_min_l; [rewrite Hcap; apply Hzero; lia |].
    apply (leb_trans_all _ (mul (timePassed now this) (rate this)));
      try done; [rewrite Hcap; apply ofZ_valid |].
    rewrite Hcap, Hrate.
    apply (mul_above _ (ofZ k)); try apply ofZ_valid;
      try (apply ofZ_finite; lia); try (apply Hzero; lia).
    - unfold timePassed. auto with number.
    - apply ofZ_nonneg. lia.
    - apply timePassed_above; try done; lia.
    - rewrite !scaled_ofZ by lia. nia. }
  split; [done|]. intros req Hreq.
  apply isAllowed_true_iff. unfold geb. by rewrite Hfull.
Qed.

Lemma trace_keeps_range_witness :
  validParameters (ofZ 10) (ofZ 1) ∧ timeValue 0 ∧
  forwardCalls 0 [(0, ofZ 1); (100, ofZ 3); (100, ofZ 9); (2500, ofZ 2)] ∧
  tokensInRange
    (calls [(0, ofZ 1); (100, ofZ 3); (100, ofZ 9); (2500, ofZ 2)]
       (bucketRateLimiter 0)).2.
Proof.
  assert (Hp : validParameters (ofZ 10) (ofZ 1)).
  { unfold validParameters, is_number. repeat split; reflexivity. }
  assert (Ht0 : timeValue 0) by (vm_compute; discriminate).
  assert (Hcs : forwardCalls 0
                  [(0, ofZ 1); (100, ofZ 3); (100, ofZ 9); (2500, ofZ 2)]).
  { split.
    - cbn [fmap list_fmap fst]. repeat constructor; lia.
    - repeat constructor; try reflexivity; vm_compute; discriminate. }
  split; [exact Hp |]. split; [exact Ht0 |]. split; [exact Hcs |].
  exact (proj2 (trace_keeps_range 0 (ofZ 10) (ofZ 1) _ Hp Ht0 Hcs)).
Defined.

Lemma refill_never_lowers_witness :
  wellFormed (bucketRateLimiter 0) ∧ tokensInRange (bucketRateLimiter 0) ∧
  timeValue 100 ∧ lastCheckedAt (bucketRateLimiter 0) <= 100 ∧
  leb (tokens (bucketRateLimiter 0)) (refill 100 (bucketRateLimiter 0)) = true.
Proof.
  assert (Hwf : wellFormed (bucketRateLimiter 0)).
  { unfold wellFormed, validParameters, is_number, timeValue.
    repeat split; try reflexivity. vm_compute. discriminate. }
  assert (Hr : tokensInRange (bucketRateLimiter 0))
    by (split; vm_compute; reflexivity).
  assert (Ht : timeValue 100) by (vm_compute; discriminate).
  assert (Hclock : lastCheckedAt (bucketRateLimiter 0) <= 100).
  { vm_compute. discriminate. }
  split; [exact Hwf |]. split; [exact Hr |]. split; [exact Ht |].
  split; [exact Hclock |].
  exact (proj1 (refill_never_lowers (bucketRateLimiter 0) 100 (ofZ 11)
                  Hwf Hr Ht Hclock)).
Defined.

Lemma refill_saturates_witness :
  wellFormed (bucketRateLimiter 0) ∧
  leb zero (tokens (bucketRateLimiter 0)) = true ∧
  timeValue 100 ∧ lastCheckedAt (bucketRateLimiter 0) <= 100 ∧
  tokens (bucketRateLimiter 0) = capacity (bucketRateLimiter 0) ∧
  refill 100 (bucketRateLimiter 0) = capacity (bucketRateLimiter 0).
Proof.
  assert (Hwf : wellFormed (bucketRateLimiter 0)).
  { unfold wellFormed, validParameters, is_number, timeValue.
    repeat split; try reflexivity. vm_compute. discriminate. }
  assert (Ht : timeValue 100) by (vm_compute; discriminate).
  assert (Hclock : lastCheckedAt (bucketRateLimiter 0) <= 100).
  { vm_compute. discriminate. }
  split; [exact Hwf |]. split; [reflexivity |]. split; [exact Ht |].
  split; [exact Hclock |]. split; [reflexivity |].
  refine (refill_saturates (bucketRateLimiter 0) 100 Hwf _ Ht Hclock
            (or_introl _)); reflexivity.
Defined.

Lemma beyond_capacity_denied_witness :
  wellFormed (bucketRateLimiter 0) ∧
  leb zero (tokens (bucketRateLimiter 0)) = true ∧
  timeValue 86400000 ∧ lastCheckedAt (bucketRateLimiter 0) <= 86400000 ∧
  is_number (ofZ 11) ∧
  ltb (capacity (bucketRateLimiter 0)) (ofZ 11) = true ∧
  (isAllowed 86400000 (ofZ 11) (bucketRateLimiter 0)).1 = false.
Proof.
  assert (Hwf : wellFormed (bucketRateLimiter 0)).
  { unfold wellFormed, validParameters, is_number, timeValue.
    repeat split; try reflexivity. vm_compute. discriminate. }
  assert (Ht : timeValue 86400000) by (vm_compute; discriminate).
  assert (Hclock : lastCheckedAt (bucketRateLimiter 0) <= 86400000).
  { vm_compute. discriminate. }
  split; [exact Hwf |]. split; [reflexivity |]. split; [exact Ht |].
  split; [exact Hclock |]. split; [reflexivity |]. split; [reflexivity |].
  refine (proj1 (proj1 (beyond_capacity_denied (bucketRateLimiter 0) 86400000
                          (ofZ 11)) Hwf _ Ht Hclock _ _)); reflexivity.
Defined.

Lemma poisoned_denies_forever_witness :
  poisoned (constructor 0 S754_nan (ofZ 1)) ∧
  (calls [(0, ofZ 1); (5000, ofZ 0)] (constructor 0 S754_nan (ofZ 1))).1
    = [false; false].
Proof.
  assert (Hp : poisoned (constructor 0 S754_nan (ofZ 1)))
    by (left; reflexivity).
  split; [exact Hp |].
  exact (proj1 (poisoned_denies_forever [(0, ofZ 1); (5000, ofZ 0)] _ Hp)).
Defined.

Lemma whole_tokens_exact_witness :
  0 < 10 < 2 ^ prec ∧ 0 <= 10 <= 10 ∧
  Forall (λ n, 0 <= n < 2 ^ prec) [3; 8; 7] ∧
  ltb zero (ofZ 1) = true ∧ finite (ofZ 1) = true ∧ timeValue 0 ∧
  calls (atInstant 0 [3; 8; 7]) (wholeBucket 10 10 0 (ofZ 1)) =
  ([true; false; true], wholeBucket 10 0 0 (ofZ 1)).
Proof.
  assert (Hc : 0 < 10 < 2 ^ prec) by (split; reflexivity).
  assert (Ha : 0 <= 10 <= 10) by lia.
  assert (Hall : Forall (λ n, 0 <= n < 2 ^ prec) [3; 8; 7]).
  { repeat constructor; try lia; reflexivity. }
  assert (Ht : timeValue 0) by (vm_compute; discriminate).
  split; [exact Hc |]. split; [exact Ha |]. split; [exact Hall |].
  split; [reflexivity |]. split; [reflexivity |]. split; [exact Ht |].
  refine (whole_tokens_exact 10 0 (ofZ 1) [3; 8; 7] 10 Hc Ha Hall _ _ Ht);
    reflexivity.
Defined.

Lemma whole_burst_witness :
  0 < 10 < 2 ^ prec ∧ 0 < 3 < 2 ^ prec ∧
  ltb zero (ofZ 1) = true ∧ finite (ofZ 1) = true ∧ timeValue 0 ∧
  (calls (atInstant 0 (replicate 5 3)) (constructor 0 (ofZ 10) (ofZ 1))).1 =
  [true; true; true; false; false].
Proof.
  assert (Hc : 0 < 10 < 2 ^ prec) by (split; reflexivity).
  assert (Hk : 0 < 3 < 2 ^ prec) by (split; reflexivity).
  assert (Ht : timeValue 0) by (vm_compute; discriminate).
  split; [exact Hc |]. split; [exact Hk |].
  split; [reflexivity |]. split; [reflexivity |]. split; [exact Ht |].
  refine (whole_burst 10 3 0 (ofZ 1) 5 Hc Hk _ _ Ht); reflexivity.
Defined.

Lemma idle_refills_to_capacity_witness :
  capacity (calls (atInstant 0 (replicate 10 1)) (bucketRateLimiter 0)).2
    = ofZ 10 ∧
  rate (calls (atInstant 0 (replicate 10 1)) (bucketRateLimiter 0)).2
    = ofZ 1 ∧
  0 < 10 < 2 ^ prec ∧ 0 < 1 < 2 ^ prec ∧
  is_number
    (tokens (calls (atInstant 0 (replicate 10 1)) (bucketRateLimiter 0)).2) ∧
  leb zero
    (tokens (calls (atInstant 0 (replicate 10 1)) (bucketRateLimiter 0)).2)
    = true ∧
  timeValue
    (lastCheckedAt
       (calls (atInstant 0 (replicate 10 1)) (bucketRateLimiter 0)).2) ∧
  timeValue 10500 ∧ 1000 * 10 < 2 ^ prec ∧
  1000 * 10 <= 10500 - lastCheckedAt
     (calls (atInstant 0 (replicate 10 1)) (bucketRateLimiter 0)).2 ∧
  10 <= 10 * 1 ∧
  refill 10500 (calls (atInstant 0 (replicate 10 1)) (bucketRateLimiter 0)).2
    = capacity (calls (atInstant 0 (replicate 10 1)) (bucketRateLimiter 0)).2.
Proof.
  set (this := (calls (atInstant 0 (replicate 10 1)) (bucketRateLimiter 0)).2).
  assert (Hcap : capacity this = ofZ 10) by (vm_compute; reflexivity).
  assert (Hrate : rate this = ofZ 1) by (vm_compute; reflexivity).
  assert (Hc : 0 < 10 < 2 ^ prec) by (split; reflexivity).
  assert (Hr : 0 < 1 < 2 ^ prec) by (split; reflexivity).
  assert (Ht : is_number (tokens this)) by (vm_compute; reflexivity).
  assert (Ht0 : leb zero (tokens this) = true) by (vm_compute; reflexivity).
  assert (Hlast : timeValue (lastCheckedAt this))
    by (vm_compute; discriminate).
  assert (Hnow : timeValue 10500) by (vm_compute; discriminate).
  assert (Hlt : 1000 * 10 < 2 ^ prec) by reflexivity.
  assert (Hle : 1000 * 10 <= 10500 - lastCheckedAt this)
    by (vm_compute; discriminate).
  assert (Hreach : 10 <= 10 * 1) by lia.
  do 11 (split; [assumption |]).
  exact (proj1 (idle_refills_to_capacity this 10500 10 1 10 Hcap Hrate Hc Hr
                  Ht Ht0 Hlast Hnow Hlt Hle Hreach)).
Defined.

End TokenBucketProps.
